(** * Ester: the streaming decoder of [src/utils/openai.ts]

    A shallow embedding of [streamOpenAIChat] and of the generator
    [streamChunks] it returns, together with the platform operations the
    generator calls: [TextDecoder('utf-8')] in streaming mode, the string
    methods [split], [pop], [startsWith], [replace] and [trim], and
    [JSON.parse].

    Conventions.
    - A JavaScript string is the list of its UTF-16 code units, each a [Z].
    - A [Uint8Array] is the list of its bytes, each a [Z] in [0, 255].
    - A JavaScript value is a term of [JSValue].
    - The generator is a labelled transition system on [GenState]; a
      consumer that pulls the sequence to its end observes a [trace]. *)

From Stdlib Require Import String Ascii.
From Stdlib Require Import List ZArith Lia Bool.
Import ListNotations.
Local Open Scope Z_scope.

Set Implicit Arguments.

(* ================================================================== *)
(** ** JavaScript strings *)
(* ================================================================== *)

Module JSString.

(** A string value: its UTF-16 code units. *)
Definition t := list Z.

(** The code units of an ASCII literal of the source. *)
Fixpoint lit (s : string) : t :=
  match s with
  | EmptyString => []
  | String a s' => Z.of_N (N_of_ascii a) :: lit s'
  end.

Fixpoint eqb (a b : t) : bool :=
  match a, b with
  | [], [] => true
  | x :: a', y :: b' => (x =? y) && eqb a' b'
  | _, _ => false
  end.

(** U+000A, the separator of [buffer.split('\n')]. *)
Definition LF : Z := 10.

(** [s.split(sep)] for a separator of one code unit.  The result is
    never empty: the empty string splits into one empty string. *)
Fixpoint split (sep : Z) (s : t) : list t :=
  match s with
  | [] => [[]]
  | c :: s' =>
      if c =? sep then [] :: split sep s'
      else match split sep s' with
           | l :: ls => (c :: l) :: ls
           | [] => [[c]]
           end
  end.

(** [lines.pop()]: the last element ([undefined], here [None], on an
    empty array) and the array that is left. *)
Definition pop (A : Type) (l : list A) : option A * list A :=
  match l with
  | [] => (None, [])
  | x :: l' => (Some (last l' x), removelast l)
  end.

(** [s.startsWith(p)]. *)
Fixpoint startsWith (s p : t) : bool :=
  match p, s with
  | [], _ => true
  | y :: p', x :: s' => (x =? y) && startsWith s' p'
  | _ :: _, [] => false
  end.

(** [s.replace(pat, rep)] for a string pattern: the first occurrence
    only.  [rep] is inserted as it is (the source's replacement is the
    empty string, which holds no [$] pattern). *)
Fixpoint replace (s pat rep : t) : t :=
  if startsWith s pat then rep ++ skipn (List.length pat) s
  else match s with
       | [] => []
       | c :: s' => c :: replace s' pat rep
       end.

(** WhiteSpace and LineTerminator code points of ECMAScript, the ones
    [trim] removes. *)
Definition is_trim_space (c : Z) : bool :=
  (c =? 9) || (c =? 10) || (c =? 11) || (c =? 12) || (c =? 13)
  || (c =? 32) || (c =? 160) || (c =? 5760)
  || ((8192 <=? c) && (c <=? 8202))
  || (c =? 8232) || (c =? 8233) || (c =? 8239) || (c =? 8287)
  || (c =? 12288) || (c =? 65279).

Fixpoint trimStart (s : t) : t :=
  match s with
  | [] => []
  | c :: s' => if is_trim_space c then trimStart s' else s
  end.

(** [s.trim()]. *)
Definition trim (s : t) : t := rev (trimStart (rev (trimStart s))).

End JSString.

Definition jsstring : Type := JSString.t.

(* ================================================================== *)
(** ** The platform's [TextDecoder('utf-8')], after the Encoding Standard *)
(* ================================================================== *)

Module TextDecoder.

(** The UTF-8 decoder's variables. *)
Record utf8 := {
  code_point : Z;
  bytes_seen : Z;
  bytes_needed : Z;
  lower_boundary : Z;
  upper_boundary : Z
}.

Definition utf8_init : utf8 :=
  {| code_point := 0; bytes_seen := 0; bytes_needed := 0;
     lower_boundary := 128; upper_boundary := 191 |}.

Inductive handled :=
| Continue
| CodePoint (cp : Z)
| DecodeError
| DecodeErrorRestore.   (* error, and the byte goes back to the queue *)

Definition in_range (lo hi x : Z) : bool := (lo <=? x) && (x <=? hi).

(** The UTF-8 decoder's handler, for one byte. *)
Definition handler (d : utf8) (byte : Z) : utf8 * handled :=
  if bytes_needed d =? 0 then
    if in_range 0 127 byte then (d, CodePoint byte)
    else if in_range 194 223 byte then
      ({| code_point := Z.land byte 31; bytes_seen := bytes_seen d;
          bytes_needed := 1;
          lower_boundary := lower_boundary d;
          upper_boundary := upper_boundary d |}, Continue)
    else if in_range 224 239 byte then
      ({| code_point := Z.land byte 15; bytes_seen := bytes_seen d;
          bytes_needed := 2;
          lower_boundary := if byte =? 224 then 160 else lower_boundary d;
          upper_boundary := if byte =? 237 then 159 else upper_boundary d |},
       Continue)
    else if in_range 240 244 byte then
      ({| code_point := Z.land byte 7; bytes_seen := bytes_seen d;
          bytes_needed := 3;
          lower_boundary := if byte =? 240 then 144 else lower_boundary d;
          upper_boundary := if byte =? 244 then 143 else upper_boundary d |},
       Continue)
    else (d, DecodeError)
  else if negb (in_range (lower_boundary d) (upper_boundary d) byte) then
    (utf8_init, DecodeErrorRestore)
  else
    let cp := Z.lor (Z.shiftl (code_point d) 6) (Z.land byte 63) in
    let seen := bytes_seen d + 1 in
    if negb (seen =? bytes_needed d) then
      ({| code_point := cp; bytes_seen := seen;
          bytes_needed := bytes_needed d;
          lower_boundary := 128; upper_boundary := 191 |}, Continue)
    else (utf8_init, CodePoint cp).

(** What holds of the UTF-8 decoder between bytes: inside a sequence,
    the bits gathered so far are not all zero, or the next byte is
    bound to add one. *)
Definition utf8_ok (d : utf8) : Prop :=
  0 <= code_point d /\ 128 <= lower_boundary d /\ upper_boundary d <= 191
  /\ (bytes_needed d = 0 \/ 0 < code_point d \/ 144 <= lower_boundary d).

(** U+FFFD, emitted for an error in the [replacement] error mode. *)
Definition REPLACEMENT : Z := 65533.

(** Processing one byte of the queue: the scalar values it adds to the
    output.  A restored byte is read again, by a decoder that was reset. *)
Definition process (d : utf8) (byte : Z) : utf8 * list Z :=
  match handler d byte with
  | (d', Continue) => (d', [])
  | (d', CodePoint cp) => (d', [cp])
  | (d', DecodeError) => (d', [REPLACEMENT])
  | (d', DecodeErrorRestore) =>
      match handler d' byte with
      | (d'', Continue) => (d'', [REPLACEMENT])
      | (d'', CodePoint cp) => (d'', [REPLACEMENT; cp])
      | (d'', _) => (d'', [REPLACEMENT; REPLACEMENT])
      end
  end.

Fixpoint process_all (d : utf8) (bytes : list Z) : utf8 * list Z :=
  match bytes with
  | [] => (d, [])
  | b :: bs =>
      let (d1, out1) := process d b in
      let (d2, out2) := process_all d1 bs in
      (d2, out1 ++ out2)
  end.

(** The decoder object: the UTF-8 decoder and the [BOM seen] flag.  The
    source only ever calls [decode] with [stream: true], so the
    [do not flush] flag is set from the first call on and neither is
    reset. *)
Record t := { decoder : utf8; BOM_seen : bool }.

Definition init : t := {| decoder := utf8_init; BOM_seen := false |}.

(** A scalar value as UTF-16 code units. *)
Definition code_units (cp : Z) : jsstring :=
  if cp <? 65536 then [cp]
  else [55296 + Z.shiftr (cp - 65536) 10; 56320 + Z.land (cp - 65536) 1023].

(** [serialize I/O queue]: the first scalar value ever serialized is
    dropped when it is U+FEFF. *)
Definition serialize (bom_seen : bool) (out : list Z) : bool * jsstring :=
  match out with
  | [] => (bom_seen, [])
  | c :: out' =>
      (true,
       flat_map code_units
         (if negb bom_seen && (c =? 65279) then out' else out))
  end.

(** [decoder.decode(value, { stream: true })]. *)
Definition decode (td : t) (value : list Z) : t * jsstring :=
  let (d', out) := process_all (decoder td) value in
  let (seen', text) := serialize (BOM_seen td) out in
  ({| decoder := d'; BOM_seen := seen' |}, text).

End TextDecoder.

(* ================================================================== *)
(** ** JavaScript values *)
(* ================================================================== *)

(** The values [JSON.parse] can return, and [undefined].  A number is
    kept as the decimal [mantissa * 10 ^ exponent] its literal denotes; an
    object is the list of its own properties, one entry per key, in the
    order the keys were first defined (nothing below depends on the
    order). *)
#[warnings="-register-all"]
Inductive JSValue :=
| JUndefined
| JNull
| JBool (b : bool)
| JNum (mantissa exponent : Z)
| JStr (s : jsstring)
| JArr (elements : list JSValue)
| JObj (properties : list (jsstring * JSValue)).

(** What a [throw] carries. *)
Inductive exn :=
| Error (message : string)
| SyntaxError
| TypeError
| TransportError (code : Z).

(** The result of an operation that may throw. *)
Definition throws (A : Type) : Type := (exn + A)%type.

Definition ret (A : Type) (a : A) : throws A := inr a.
Definition throw {A : Type} (e : exn) : throws A := inl e.
Definition bind (A B : Type) (m : throws A) (k : A -> throws B) : throws B :=
  match m with
  | inl e => inl e
  | inr a => k a
  end.

Notation "x <- m ;; k" := (bind m (fun x => k))
  (at level 61, m at next level, right associativity).

Module JS.

(** The double nearest to [m * 10 ^ e] is zero: [m] is zero, or the
    magnitude is at most [2 ^ -1075], half the least subnormal. *)
Definition rounds_to_zero (m e : Z) : bool :=
  (m =? 0) || ((e <? 0) && (Z.abs m * 2 ^ 1075 <=? 10 ^ (- e))).

(** [ToBoolean]. *)
Definition truthy (v : JSValue) : bool :=
  match v with
  | JUndefined | JNull => false
  | JBool b => b
  | JNum m e => negb (rounds_to_zero m e)
  | JStr s => negb (JSString.eqb s [])
  | JArr _ | JObj _ => true
  end.

Fixpoint lookup (props : list (jsstring * JSValue)) (key : jsstring)
  : option JSValue :=
  match props with
  | [] => None
  | (k, v) :: props' => if JSString.eqb k key then Some v else lookup props' key
  end.

(** [CreateDataProperty]: a key already there keeps its place and takes
    the new value. *)
Fixpoint define (props : list (jsstring * JSValue)) (key : jsstring)
  (v : JSValue) : list (jsstring * JSValue) :=
  match props with
  | [] => [(key, v)]
  | (k, w) :: props' =>
      if JSString.eqb k key then (k, v) :: props'
      else (k, w) :: define props' key v
  end.

(** [v.key], for a key that no built-in prototype defines and that is
    neither an index nor [length]: the three keys the source reads
    ([type], [delta], [openaiApiKey]) are such.  Reading a property of
    [null] or [undefined] throws a [TypeError]. *)
Definition get (v : JSValue) (key : jsstring) : throws JSValue :=
  match v with
  | JUndefined | JNull => throw TypeError
  | JObj props =>
      match lookup props key with
      | Some w => ret w
      | None => ret JUndefined
      end
  | _ => ret JUndefined
  end.

(** [v === s] for a string literal [s]. *)
Definition strict_eq_string (v : JSValue) (s : jsstring) : bool :=
  match v with
  | JStr s' => JSString.eqb s' s
  | _ => false
  end.

(** [a || b]. *)
Definition or (a b : JSValue) : JSValue := if truthy a then a else b.

End JS.

(* ================================================================== *)
(** ** The platform's [JSON.parse], after ECMA-404 and ECMA-262 *)
(* ================================================================== *)

Module JSON.

Definition ch (a : ascii) : Z := Z.of_N (N_of_ascii a).

Inductive token :=
| TLBrace | TRBrace | TLBracket | TRBracket | TColon | TComma
| TString (s : jsstring)
| TNumber (mantissa exponent : Z)
| TTrue | TFalse | TNull.

(** *** Numbers: an optional minus sign, an integer part with no
    leading zero, an optional fraction, an optional exponent *)

Inductive numphase :=
| NMinus | NZero | NInt | NDot | NFrac | NExpMark | NExpSign | NExp.

Record numlit := {
  negative : bool;
  digits : Z;            (* the integer and fraction digits, as one number *)
  fraction_digits : Z;
  exp_negative : bool;
  exp_digits : Z
}.

Definition num0 : numlit :=
  {| negative := false; digits := 0; fraction_digits := 0;
     exp_negative := false; exp_digits := 0 |}.

Definition is_digit (c : Z) : bool := (48 <=? c) && (c <=? 57).
Definition is_exp_mark (c : Z) : bool := (c =? ch "e") || (c =? ch "E").

Definition push_digit (n : numlit) (c : Z) (fraction : bool) : numlit :=
  {| negative := negative n;
     digits := digits n * 10 + (c - 48);
     fraction_digits := fraction_digits n + (if fraction then 1 else 0);
     exp_negative := exp_negative n;
     exp_digits := exp_digits n |}.

Definition push_exp_digit (n : numlit) (c : Z) : numlit :=
  {| negative := negative n; digits := digits n;
     fraction_digits := fraction_digits n;
     exp_negative := exp_negative n;
     exp_digits := exp_digits n * 10 + (c - 48) |}.

Definition set_exp_negative (n : numlit) (b : bool) : numlit :=
  {| negative := negative n; digits := digits n;
     fraction_digits := fraction_digits n;
     exp_negative := b; exp_digits := exp_digits n |}.

Inductive numstep :=
| NumNext (ph : numphase) (n : numlit)
| NumEnd                                (* the literal ended before [c] *)
| NumBad.

Definition num_step (ph : numphase) (n : numlit) (c : Z) : numstep :=
  match ph with
  | NMinus =>
      if c =? ch "0" then NumNext NZero n
      else if is_digit c then NumNext NInt (push_digit n c false)
      else NumBad
  | NZero =>
      if c =? ch "." then NumNext NDot n
      else if is_exp_mark c then NumNext NExpMark n
      else NumEnd
  | NInt =>
      if is_digit c then NumNext NInt (push_digit n c false)
      else if c =? ch "." then NumNext NDot n
      else if is_exp_mark c then NumNext NExpMark n
      else NumEnd
  | NDot =>
      if is_digit c then NumNext NFrac (push_digit n c true) else NumBad
  | NFrac =>
      if is_digit c then NumNext NFrac (push_digit n c true)
      else if is_exp_mark c then NumNext NExpMark n
      else NumEnd
  | NExpMark =>
      if c =? ch "+" then NumNext NExpSign n
      else if c =? ch "-" then NumNext NExpSign (set_exp_negative n true)
      else if is_digit c then NumNext NExp (push_exp_digit n c)
      else NumBad
  | NExpSign =>
      if is_digit c then NumNext NExp (push_exp_digit n c) else NumBad
  | NExp =>
      if is_digit c then NumNext NExp (push_exp_digit n c) else NumEnd
  end.

(** The token of a literal that ends in phase [ph]. *)
Definition num_token (ph : numphase) (n : numlit) : option token :=
  match ph with
  | NZero | NInt | NFrac | NExp =>
      Some (TNumber
              (if negative n then - digits n else digits n)
              ((if exp_negative n then - exp_digits n else exp_digits n)
               - fraction_digits n))
  | _ => None
  end.

(** *** The scanner, one code unit at a time *)

Inductive mode :=
| MDefault
| MString (acc : jsstring)                       (* reversed *)
| MEscape (acc : jsstring)
| MUnicode (acc : jsstring) (more : nat) (v : Z)
| MLiteral (rest : jsstring) (tok : token)
| MNumber (ph : numphase) (n : numlit).

Definition is_json_space (c : Z) : bool :=
  (c =? 9) || (c =? 10) || (c =? 13) || (c =? 32).

Definition hex_value (c : Z) : option Z :=
  if is_digit c then Some (c - 48)
  else if (97 <=? c) && (c <=? 102) then Some (c - 87)
  else if (65 <=? c) && (c <=? 70) then Some (c - 55)
  else None.

Definition scan_default (c : Z) : option (list token * mode) :=
  if is_json_space c then Some ([], MDefault)
  else if c =? ch "{" then Some ([TLBrace], MDefault)
  else if c =? ch "}" then Some ([TRBrace], MDefault)
  else if c =? ch "[" then Some ([TLBracket], MDefault)
  else if c =? ch "]" then Some ([TRBracket], MDefault)
  else if c =? ch ":" then Some ([TColon], MDefault)
  else if c =? ch "," then Some ([TComma], MDefault)
  else if c =? 34 then Some ([], MString [])
  else if c =? ch "-" then
    Some ([], MNumber NMinus
                {| negative := true; digits := 0; fraction_digits := 0;
                   exp_negative := false; exp_digits := 0 |})
  else if c =? ch "0" then Some ([], MNumber NZero num0)
  else if is_digit c then Some ([], MNumber NInt (push_digit num0 c false))
  else if c =? ch "t" then Some ([], MLiteral (JSString.lit "rue") TTrue)
  else if c =? ch "f" then Some ([], MLiteral (JSString.lit "alse") TFalse)
  else if c =? ch "n" then Some ([], MLiteral (JSString.lit "ull") TNull)
  else None.

Definition scan_escape (acc : jsstring) (c : Z) : option (list token * mode) :=
  if c =? 34 then Some ([], MString (34 :: acc))
  else if c =? 92 then Some ([], MString (92 :: acc))
  else if c =? ch "/" then Some ([], MString (47 :: acc))
  else if c =? ch "b" then Some ([], MString (8 :: acc))
  else if c =? ch "f" then Some ([], MString (12 :: acc))
  else if c =? ch "n" then Some ([], MString (10 :: acc))
  else if c =? ch "r" then Some ([], MString (13 :: acc))
  else if c =? ch "t" then Some ([], MString (9 :: acc))
  else if c =? ch "u" then Some ([], MUnicode acc 4 0)
  else None.

Definition scan (m : mode) (c : Z) : option (list token * mode) :=
  match m with
  | MDefault => scan_default c
  | MString acc =>
      if c =? 34 then Some ([TString (rev acc)], MDefault)
      else if c =? 92 then Some ([], MEscape acc)
      else if (0 <=? c) && (c <? 32) then None
      else Some ([], MString (c :: acc))
  | MEscape acc => scan_escape acc c
  | MUnicode acc more v =>
      match hex_value c, more with
      | Some h, S O => Some ([], MString ((v * 16 + h) :: acc))
      | Some h, S more' => Some ([], MUnicode acc more' (v * 16 + h))
      | _, _ => None
      end
  | MLiteral rest tok =>
      match rest with
      | x :: [] => if c =? x then Some ([tok], MDefault) else None
      | x :: rest' => if c =? x then Some ([], MLiteral rest' tok) else None
      | [] => None
      end
  | MNumber ph n =>
      match num_step ph n c with
      | NumNext ph' n' => Some ([], MNumber ph' n')
      | NumBad => None
      | NumEnd =>
          match num_token ph n, scan_default c with
          | Some tok, Some (toks, m') => Some (tok :: toks, m')
          | _, _ => None
          end
      end
  end.

(** The end of the text. *)
Definition scan_end (m : mode) : option (list token) :=
  match m with
  | MDefault => Some []
  | MNumber ph n =>
      match num_token ph n with
      | Some tok => Some [tok]
      | None => None
      end
  | _ => None
  end.

Fixpoint tokens (m : mode) (text : jsstring) : option (list token) :=
  match text with
  | [] => scan_end m
  | c :: text' =>
      match scan m c with
      | None => None
      | Some (toks, m') =>
          match tokens m' text' with
          | None => None
          | Some rest => Some (toks ++ rest)
          end
      end
  end.

(** *** The grammar of values, as a machine with a stack of the open
    arrays and objects *)

Inductive frame :=
| InArray (elements : list JSValue)                       (* reversed *)
| InObject (props : list (jsstring * JSValue)) (key : jsstring).

Inductive pstate :=
| PValue (stack : list frame)             (* a value is due *)
| PArrayOpen (stack : list frame)         (* after [[]: a value or []] *)
| PObjectOpen (stack : list frame)        (* after [{]: a key or [}] *)
| PKey (props : list (jsstring * JSValue)) (stack : list frame)
| PColon (props : list (jsstring * JSValue)) (key : jsstring)
    (stack : list frame)
| PArrayNext (elements : list JSValue) (stack : list frame)
| PObjectNext (props : list (jsstring * JSValue)) (stack : list frame)
| PDone (v : JSValue).

(** A value is complete: it goes to the innermost open array or object. *)
Definition deliver (v : JSValue) (stack : list frame) : pstate :=
  match stack with
  | [] => PDone v
  | InArray elements :: stack' => PArrayNext (v :: elements) stack'
  | InObject props key :: stack' =>
      PObjectNext (JS.define props key v) stack'
  end.

Definition parse_value (tok : token) (stack : list frame) : option pstate :=
  match tok with
  | TString s => Some (deliver (JStr s) stack)
  | TNumber m e => Some (deliver (JNum m e) stack)
  | TTrue => Some (deliver (JBool true) stack)
  | TFalse => Some (deliver (JBool false) stack)
  | TNull => Some (deliver JNull stack)
  | TLBracket => Some (PArrayOpen stack)
  | TLBrace => Some (PObjectOpen stack)
  | _ => None
  end.

Definition parse_step (st : pstate) (tok : token) : option pstate :=
  match st, tok with
  | PValue stack, _ => parse_value tok stack
  | PArrayOpen stack, TRBracket => Some (deliver (JArr []) stack)
  | PArrayOpen stack, _ => parse_value tok (InArray [] :: stack)
  | PObjectOpen stack, TRBrace => Some (deliver (JObj []) stack)
  | PObjectOpen stack, TString k => Some (PColon [] k stack)
  | PKey props stack, TString k => Some (PColon props k stack)
  | PColon props k stack, TColon => Some (PValue (InObject props k :: stack))
  | PArrayNext elements stack, TComma => Some (PValue (InArray elements :: stack))
  | PArrayNext elements stack, TRBracket =>
      Some (deliver (JArr (rev elements)) stack)
  | PObjectNext props stack, TComma => Some (PKey props stack)
  | PObjectNext props stack, TRBrace => Some (deliver (JObj props) stack)
  | _, _ => None
  end.

Fixpoint parse_tokens (st : pstate) (toks : list token) : option JSValue :=
  match toks with
  | [] => match st with
          | PDone v => Some v
          | _ => None
          end
  | tok :: toks' =>
      match parse_step st tok with
      | None => None
      | Some st' => parse_tokens st' toks'
      end
  end.

(** [JSON.parse(text)]: the value, or a [SyntaxError]. *)
Definition parse (text : jsstring) : throws JSValue :=
  match tokens MDefault text with
  | None => throw SyntaxError
  | Some toks =>
      match parse_tokens (PValue []) toks with
      | None => throw SyntaxError
      | Some v => ret v
      end
  end.

End JSON.

(* ================================================================== *)
(** ** The transport: [response.body.getReader()] *)
(* ================================================================== *)

(** How the body ends: the transport closes it, or a read fails. *)
Inductive closing :=
| EndOfStream
| ReadFailure (e : exn).

(** A reader is the chunks it has still to deliver and its closing. *)
Record Reader := {
  pending : list (list Z);
  close : closing
}.

(** What [reader.read()] resolves to. *)
Record ReadResult := {
  value : option (list Z);
  doneReading : bool
}.

(** [await reader.read()]: the next chunk; at the end, [value] undefined
    and [done] true; a failed read rejects. *)
Definition read (r : Reader) : throws ReadResult * Reader :=
  match pending r with
  | chunk :: rest =>
      (ret {| value := Some chunk; doneReading := false |},
       {| pending := rest; close := close r |})
  | [] =>
      match close r with
      | EndOfStream => (ret {| value := None; doneReading := true |}, r)
      | ReadFailure e => (throw e, r)
      end
  end.

(* ================================================================== *)
(** ** [streamChunks], lines 98 to 121 *)
(* ================================================================== *)

Definition DATA_MARKER : jsstring := JSString.lit "data: ".
Definition DONE_SENTINEL : jsstring := JSString.lit "[DONE]".
Definition OUTPUT_TEXT_DELTA : jsstring := JSString.lit "response.output_text.delta".
Definition KEY_type : jsstring := JSString.lit "type".
Definition KEY_delta : jsstring := JSString.lit "delta".

(** [line.replace('data: ', '').trim()], line 108. *)
Definition payload (line : jsstring) : jsstring :=
  JSString.trim (JSString.replace line DATA_MARKER []).

(** The [try] block, lines 111 to 115: the value to yield, if any. *)
Definition try_block (data : jsstring) : throws (option JSValue) :=
  parsed <- JSON.parse data ;;
  type <- JS.get parsed KEY_type ;;
  if JS.strict_eq_string type OUTPUT_TEXT_DELTA then
    delta <- JS.get parsed KEY_delta ;;
    if JS.truthy delta then
      yielded <- JS.get parsed KEY_delta ;;
      ret (Some yielded)
    else ret None
  else ret None.

(** What the body of the [for] loop does with one line. *)
Inductive line_result :=
| Skip                 (* nothing: on to the next line *)
| Stop                 (* [return], line 109 *)
| Emit (v : JSValue).  (* [yield], line 114 *)

(** The body of the [for] loop, lines 107 to 117. *)
Definition for_body (line : jsstring) : line_result :=
  if JSString.startsWith line DATA_MARKER then
    let data := payload line in
    if JSString.eqb data DONE_SENTINEL then Stop
    else match try_block data with
         | inr (Some v) => Emit v
         | inr None => Skip
         | inl _ => Skip               (* [catch {}] *)
         end
  else Skip.

(** The generator is taken in steps: a step reads one chunk, or takes
    one line of the [for] loop, or ends the sequence.  A call of
    [next()] by the consumer runs steps up to the first that is not
    silent.  The consumer pulls with [next()] only, one call at a time
    (it neither throws into the generator nor returns from it early). *)

(** Where the generator stands. *)
Inductive position :=
| AtWhile                          (* at the loop test, line 99 *)
| InFor (lines : list jsstring)    (* in the [for] loop, these lines left *)
| Completed.

(** The generator and the variables it closes over (lines 93 to 96). *)
Record GenState := {
  reader : Reader;
  decoder : TextDecoder.t;
  done : bool;
  buffer : jsstring;
  at_ : position
}.

Definition goto (st : GenState) (p : position) : GenState :=
  {| reader := reader st; decoder := decoder st; done := done st;
     buffer := buffer st; at_ := p |}.

(** What the consumer sees of one step: nothing, an element, the end of
    the sequence, or an error. *)
Inductive label :=
| Tau
| Yield (v : JSValue)
| Return
| Throw (e : exn).

(** [lines.pop()!]: the assertion is erased when the code runs; an
    [undefined] buffer would read as the text [undefined] in the next
    [buffer += ...]. *)
Definition nonnull (o : option jsstring) : jsstring :=
  match o with
  | Some s => s
  | None => JSString.lit "undefined"
  end.

(** One step of the generator. *)
Definition step (st : GenState) : label * GenState :=
  match at_ st with
  | Completed => (Return, st)
  | AtWhile =>
      if done st then (Return, goto st Completed)
      else
        match read (reader st) with
        | (inl e, r) =>
            (Throw e,
             {| reader := r; decoder := decoder st; done := done st;
                buffer := buffer st; at_ := Completed |})
        | (inr res, r) =>
            match value res with
            | Some bytes =>
                let (td, text) := TextDecoder.decode (decoder st) bytes in
                let (popped, lines) :=
                  JSString.pop (JSString.split JSString.LF (buffer st ++ text)) in
                (Tau,
                 {| reader := r; decoder := td; done := doneReading res;
                    buffer := nonnull popped; at_ := InFor lines |})
            | None =>
                (Tau,
                 {| reader := r; decoder := decoder st; done := doneReading res;
                    buffer := buffer st; at_ := AtWhile |})
            end
        end
  | InFor [] => (Tau, goto st AtWhile)
  | InFor (line :: rest) =>
      match for_body line with
      | Stop => (Return, goto st Completed)
      | Emit v => (Yield v, goto st (InFor rest))
      | Skip => (Tau, goto st (InFor rest))
      end
  end.

(** The generator [streamChunks()] returns, over a reader. *)
Definition streamChunks (r : Reader) : GenState :=
  {| reader := r; decoder := TextDecoder.init; done := false;
     buffer := []; at_ := AtWhile |}.

(** How a sequence ends. *)
Inductive outcome :=
| Done
| Failed (e : exn).

(** What a consumer that pulls the sequence to its end observes: the
    elements, in order, and how the sequence ends. *)
Inductive trace : GenState -> list JSValue -> outcome -> Prop :=
| trace_tau st st' ys o :
    step st = (Tau, st') -> trace st' ys o -> trace st ys o
| trace_yield st st' v ys o :
    step st = (Yield v, st') -> trace st' ys o -> trace st (v :: ys) o
| trace_return st st' :
    step st = (Return, st') -> trace st [] Done
| trace_throw st st' e :
    step st = (Throw e, st') -> trace st [] (Failed e).

(** The states the generator passes through from [s0]. *)
Inductive reachable (s0 : GenState) : GenState -> Prop :=
| reachable_start : reachable s0 s0
| reachable_step st l st' :
    reachable s0 st -> step st = (l, st') -> reachable s0 st'.

(** *** The same, computed *)

(** The [for] loop over [lines]: the elements, and whether it returned. *)
Fixpoint run_for (lines : list jsstring) : list JSValue * bool :=
  match lines with
  | [] => ([], false)
  | line :: rest =>
      match for_body line with
      | Stop => ([], true)
      | Emit v => let (ys, stopped) := run_for rest in (v :: ys, stopped)
      | Skip => run_for rest
      end
  end.

(** The [while] loop, entered with [done] false. *)
Fixpoint run_while (chunks : list (list Z)) (c : closing)
  (td : TextDecoder.t) (buf : jsstring) : list JSValue * outcome :=
  match chunks with
  | [] =>
      match c with
      | EndOfStream => ([], Done)
      | ReadFailure e => ([], Failed e)
      end
  | bytes :: chunks' =>
      let (td', text) := TextDecoder.decode td bytes in
      let (popped, lines) :=
        JSString.pop (JSString.split JSString.LF (buf ++ text)) in
      let (ys, stopped) := run_for lines in
      if stopped then (ys, Done)
      else let (ys', o) := run_while chunks' c td' (nonnull popped) in
           (ys ++ ys', o)
  end.

Definition run_loop (st : GenState) : list JSValue * outcome :=
  if done st then ([], Done)
  else run_while (pending (reader st)) (close (reader st))
         (decoder st) (buffer st).

(** The whole sequence from [st]. *)
Definition run (st : GenState) : list JSValue * outcome :=
  match at_ st with
  | Completed => ([], Done)
  | AtWhile => run_loop st
  | InFor lines =>
      let (ys, stopped) := run_for lines in
      if stopped then (ys, Done)
      else let (ys', o) := run_loop st in (ys ++ ys', o)
  end.

(* ================================================================== *)
(** ** [streamOpenAIChat], lines 36 to 123 *)
(* ================================================================== *)

Definition OPENAI_API_URL : string := "https://api.openai.com/v1/responses".
Definition KEY_openaiApiKey : jsstring := JSString.lit "openaiApiKey".
Definition MISSING_KEY : string :=
  "Missing OpenAI API key. Please add it in your Profile page.".

(** The request [fetch] is called with: the URL and the credential of
    the [Authorization] header.  The JSON body (model, input,
    instructions, temperature, stream, metadata) is built from the
    messages alone and no property below reads it. *)
Record Request := {
  url : string;
  bearer : JSValue
}.

Record Response := {
  ok : bool;
  text : string;                 (* [await response.text()] *)
  body : option Reader           (* [response.body?.getReader()] *)
}.

(** [user?.openaiApiKey]: [undefined] when [user] is [null] or
    [undefined], the property otherwise. *)
Definition user_key (user : JSValue) : JSValue :=
  match user with
  | JUndefined | JNull => JUndefined
  | _ => match JS.get user KEY_openaiApiKey with
         | inr v => v
         | inl _ => JUndefined
         end
  end.

(** Line 52. *)
Definition resolve_key (user ENV_OPENAI_API_KEY : JSValue) : JSValue :=
  JS.or (user_key user) ENV_OPENAI_API_KEY.

(** The call: the requests it has sent, and either the error it fails
    with or the generator it returns. *)
Definition streamOpenAIChat (ENV_OPENAI_API_KEY : JSValue)
  (fetch : Request -> throws Response) (user : JSValue)
  : list Request * throws GenState :=
  let OPENAI_API_KEY := resolve_key user ENV_OPENAI_API_KEY in
  if negb (JS.truthy OPENAI_API_KEY) then ([], throw (Error MISSING_KEY))
  else
    let request := {| url := OPENAI_API_URL; bearer := OPENAI_API_KEY |} in
    match fetch request with
    | inl e => ([request], throw e)
    | inr response =>
        if negb (ok response) then
          ([request],
           throw (Error (String.append "OpenAI API error: " (text response))))
        else
          match body response with
          | None => ([request], throw (Error "No response body from OpenAI"))
          | Some r => ([request], ret (streamChunks r))
          end
    end.

(* ================================================================== *)
(** ** The request body, lines 8 to 19 and 55 to 83 *)
(* ================================================================== *)

(** Line 8. *)
Definition SYSTEM_PROMPT : jsstring :=
  JSString.lit "You are Ester, a compassionate, medically-informed "
  ++ JSString.lit "assistant supporting individuals through all stages of "
  ++ JSString.lit "pregnancy (1st, 2nd, and 3rd trimesters) and postpartum "
  ++ JSString.lit "recovery. You support users through pregnancy and "
  ++ JSString.lit "postpartum journeys, including those who have experienced "
  ++ JSString.lit "live births, stillbirths, pregnancy losses, or "
  ++ JSString.lit "complications. Never assume the outcome of the user's "
  ++ JSString.lit "pregnancy or postpartum journey. Only reference the baby if "
  ++ JSString.lit "the user has explicitly mentioned their baby's status. "
  ++ JSString.lit "Never offer congratulations unless the user has explicitly "
  ++ JSString.lit "shared positive news about their baby or pregnancy. Be "
  ++ JSString.lit "especially sensitive to the full spectrum of pregnancy and "
  ++ JSString.lit "postpartum experiences and emotions. Provide the same level "
  ++ JSString.lit "of care and support regardless of pregnancy outcome or "
  ++ JSString.lit "stage. Use the user's Whoop health data (if provided) to "
  ++ JSString.lit "give personalized, supportive, and clear advice. Never ask "
  ++ JSString.lit "the user to provide a date in a specific format such as "
  ++ JSString.lit "YYYY-MM-DD, ISO, or W3C. Always ask for and reference dates "
  ++ JSString.lit "in a natural, conversational way."
  ++ [10; 10]
  ++ JSString.lit "Important: All guidance you provide is non-medical and "
  ++ JSString.lit "should not be used as a substitute for professional medical "
  ++ JSString.lit "advice, diagnosis, or treatment. Always encourage users to "
  ++ JSString.lit "consult their healthcare provider for medical concerns.".

(** Lines 10 to 19. *)
Definition INSTRUCTIONS : jsstring :=
  JSString.lit "Format all responses in markdown for readability. Use Whoop "
  ++ JSString.lit "health data context if available. Be empathetic, clear, and "
  ++ JSString.lit "actionable. Be extremely mindful that users may be in any "
  ++ JSString.lit "stage of pregnancy (1st, 2nd, or 3rd trimester) or "
  ++ JSString.lit "postpartum, and may have experienced different outcomes, "
  ++ JSString.lit "including pregnancy loss, complications, or uncertainty. "
  ++ JSString.lit "Never assume the status of the user's baby or pregnancy. "
  ++ JSString.lit "Only reference the baby if the user has mentioned them "
  ++ JSString.lit "first. Never offer congratulations or assume a positive "
  ++ JSString.lit "outcome unless explicitly stated by the user. Be "
  ++ JSString.lit "particularly sensitive when discussing pregnancy and "
  ++ JSString.lit "postpartum, as emotional and physical needs can vary "
  ++ JSString.lit "greatly. Never ask the user to provide a date in a specific "
  ++ JSString.lit "format such as YYYY-MM-DD, ISO, or W3C. Always ask for and "
  ++ JSString.lit "reference dates in a natural, conversational way."
  ++ [10; 10]
  ++ JSString.lit "For new conversations, follow these steps:"
  ++ [10]
  ++ JSString.lit "1. If this is the first message in the conversation, "
  ++ JSString.lit "introduce yourself warmly: "
  ++ [34]
  ++ JSString.lit "Hello, I'm Ester, your pregnancy and postpartum support "
  ++ JSString.lit "assistant. I'm here to support you through your journey. "
  ++ JSString.lit "May I know your name? (Only if you feel comfortable sharing)"
  ++ [34; 10]
  ++ JSString.lit "2. After learning their name, ask for their stage "
  ++ JSString.lit "(pregnancy or postpartum) in a natural way: "
  ++ [34]
  ++ JSString.lit "Thank you for sharing, [Name]. Are you currently pregnant "
  ++ JSString.lit "or in the postpartum period? Knowing this helps me provide "
  ++ JSString.lit "the most relevant support."
  ++ [34; 10]
  ++ JSString.lit "3. If pregnant, ask for gestational age or due date in a "
  ++ JSString.lit "conversational way. If postpartum, ask when their "
  ++ JSString.lit "postpartum period began."
  ++ [10]
  ++ JSString.lit "4. If they don't provide a name or date, continue the "
  ++ JSString.lit "conversation naturally without pressing for it."
  ++ [10]
  ++ JSString.lit "5. Remember to be sensitive and understanding if they "
  ++ JSString.lit "choose not to share this information."
  ++ [10; 10]
  ++ JSString.lit "Important: All guidance you provide is non-medical and "
  ++ JSString.lit "should not be used as a substitute for professional medical "
  ++ JSString.lit "advice, diagnosis, or treatment. Always encourage users to "
  ++ JSString.lit "consult their healthcare provider for medical concerns.".

(** A message of the conversation.  The type [ChatMessage] is declared
    in [../types], outside this file; the code reads [isAI] for its
    truth value and adds [content] to a text (line 61). *)
Record ChatMessage := {
  isAI : JSValue;
  content : jsstring
}.

(** The argument of [streamOpenAIChat], lines 36 to 50.  An optional
    property that is left out is [undefined] ([None] for the prefix). *)
Module Call.

Record t := {
  messages : list ChatMessage;
  whoopData : JSValue;
  max_tokens : JSValue;
  temperature : JSValue;
  user : JSValue;
  systemPromptPrefix : option jsstring
}.

Definition with_messages (call : t) (ms : list ChatMessage) : t :=
  {| messages := ms; whoopData := whoopData call;
     max_tokens := max_tokens call; temperature := temperature call;
     user := user call; systemPromptPrefix := systemPromptPrefix call |}.

Definition with_max_tokens (call : t) (n : JSValue) : t :=
  {| messages := messages call; whoopData := whoopData call;
     max_tokens := n; temperature := temperature call;
     user := user call; systemPromptPrefix := systemPromptPrefix call |}.

End Call.

(** A default of the parameter list: it stands in for [undefined]
    only. *)
Definition default (v d : JSValue) : JSValue :=
  match v with
  | JUndefined => d
  | _ => v
  end.

(** [systemPromptPrefix = ''], line 42. *)
Definition prefix_of (call : Call.t) : jsstring :=
  match Call.systemPromptPrefix call with
  | Some p => p
  | None => []
  end.

(** [m.isAI ? 'Assistant: ' : 'User: '] *)
Definition role (m : ChatMessage) : jsstring :=
  if JS.truthy (isAI m) then JSString.lit "Assistant: "
  else JSString.lit "User: ".

(** What line 61 adds to the input for one message. *)
Definition message_line (m : ChatMessage) : jsstring :=
  role m ++ content m ++ [JSString.LF].

(** What the posted request holds beside the URL and the credential. *)
Record Posted := {
  head : Request;
  http_method : string;
  content_type : string;
  posted_body : jsstring
}.

Section Body.

(** The platform's [JSON.stringify], on the values it is given here: a
    truthy [whoopData] and the object of lines 73 to 82. *)
Variable JSON_stringify : JSValue -> jsstring.

(** The input, lines 56 to 62. *)
Definition compose_input (call : Call.t) : jsstring :=
  let input :=
    (if JS.truthy (JStr (prefix_of call))
     then prefix_of call ++ [JSString.LF] else [])
    ++ SYSTEM_PROMPT ++ [JSString.LF] in
  let input :=
    if JS.truthy (Call.whoopData call)
    then input ++ JSString.lit "User's latest Whoop health data: "
         ++ JSON_stringify (Call.whoopData call) ++ [JSString.LF]
    else input in
  fold_left (fun input m => input ++ message_line m)
    (Call.messages call) input.

(** The object of lines 73 to 82, with the commit of line 65. *)
Definition request_object (VITE_COMMIT_ID : JSValue) (call : Call.t)
  : JSValue :=
  let commitId :=
    JS.or VITE_COMMIT_ID (JStr (JSString.lit "local-development")) in
  JObj [(JSString.lit "model", JStr (JSString.lit "gpt-4o"));
        (JSString.lit "input", JStr (compose_input call));
        (JSString.lit "instructions", JStr INSTRUCTIONS);
        (JSString.lit "temperature",
         default (Call.temperature call) (JNum 7 (-1)));
        (JSString.lit "stream", JBool true);
        (JSString.lit "metadata",
         JObj [(JSString.lit "commit", commitId)])].

(** The request of lines 67 to 83. *)
Definition post (VITE_COMMIT_ID : JSValue) (call : Call.t)
  (request : Request) : Posted :=
  {| head := request; http_method := "POST";
     content_type := "application/json";
     posted_body := JSON_stringify (request_object VITE_COMMIT_ID call) |}.

(** The call with its whole argument: [streamOpenAIChat] above, with
    the body put into the request it sends. *)
Definition streamOpenAIChat_call (ENV_OPENAI_API_KEY VITE_COMMIT_ID : JSValue)
  (fetch : Posted -> throws Response) (call : Call.t)
  : list Posted * throws GenState :=
  let (sent, result) :=
    streamOpenAIChat ENV_OPENAI_API_KEY
      (fun request => fetch (post VITE_COMMIT_ID call request))
      (Call.user call) in
  (map (post VITE_COMMIT_ID call) sent, result).

End Body.

(** *** The call with the errors of the platform

    [streamOpenAIChat] and [streamOpenAIChat_call] above take the
    platform calls that the request goes through as calls that return.
    Two of them need not: [JSON.stringify] throws on a value it cannot
    write ([whoopData] is of type [any]), and [await response.text()]
    rejects when the body cannot be read.  Here they may. *)

Module Initiator.

Record Response := {
  ok : bool;
  text : throws string;          (* [await response.text()] *)
  body : option Reader           (* [response.body?.getReader()] *)
}.

Section Platform.

(** The platform's [JSON.stringify]: the text, or what it throws. *)
Variable JSON_stringify : JSValue -> throws jsstring.

(** [JSON.stringify(whoopData)], line 58, called for a truthy
    [whoopData] only. *)
Definition stringify_whoopData (call : Call.t) : throws jsstring :=
  if JS.truthy (Call.whoopData call)
  then JSON_stringify (Call.whoopData call)
  else ret [].

(** Lines 52 to 122: the requests the call has sent, and the error it
    fails with or the generator it returns.  ([console.error], line 87,
    writes to the console and changes neither.) *)
Definition streamOpenAIChat (ENV_OPENAI_API_KEY VITE_COMMIT_ID : JSValue)
  (fetch : Posted -> throws Response) (call : Call.t)
  : list Posted * throws GenState :=
  let OPENAI_API_KEY := resolve_key (Call.user call) ENV_OPENAI_API_KEY in
  if negb (JS.truthy OPENAI_API_KEY) then ([], throw (Error MISSING_KEY))
  else
    match stringify_whoopData call with
    | inl e => ([], throw e)
    | inr whoop =>
        match JSON_stringify
                (request_object (fun _ => whoop) VITE_COMMIT_ID call) with
        | inl e => ([], throw e)
        | inr body_text =>
            let request :=
              {| head := {| url := OPENAI_API_URL; bearer := OPENAI_API_KEY |};
                 http_method := "POST";
                 content_type := "application/json";
                 posted_body := body_text |} in
            match fetch request with
            | inl e => ([request], throw e)
            | inr response =>
                if negb (ok response) then
                  match text response with
                  | inl e => ([request], throw e)
                  | inr errorText =>
                      ([request],
                       throw (Error (String.append "OpenAI API error: "
                                       errorText)))
                  end
                else
                  match body response with
                  | None =>
                      ([request], throw (Error "No response body from OpenAI"))
                  | Some r => ([request], ret (streamChunks r))
                  end
            end
        end
    end.

End Platform.

End Initiator.

(** A response of the calls that return, as a response of the calls
    that may not. *)
Definition of_response (response : Response) : Initiator.Response :=
  {| Initiator.ok := ok response;
     Initiator.text := ret (text response);
     Initiator.body := body response |}.

(* ================================================================== *)
(** ** The stream as a whole: the words of the specification *)
(* ================================================================== *)

Module Spec.

(** The text a fresh decoder makes of [bytes]. *)
Definition decoded (bytes : list Z) : jsstring :=
  snd (TextDecoder.decode TextDecoder.init bytes).

(** The text the decoder has produced once [chunks] have arrived. *)
Definition received (chunks : list (list Z)) : jsstring :=
  decoded (concat chunks).

(** The candidate lines of a text: the pieces between line terminators,
    the last piece left out. *)
Definition records (text : jsstring) : list jsstring :=
  removelast (JSString.split JSString.LF text).

(** The piece after the last line terminator. *)
Definition remainder (text : jsstring) : jsstring :=
  last (JSString.split JSString.LF text) [].

(** A line whose payload is the terminal sentinel. *)
Definition is_sentinel (line : jsstring) : bool :=
  JSString.startsWith line DATA_MARKER
  && JSString.eqb (payload line) DONE_SENTINEL.

(** The element a line stands for, if it is a Delta: what the loop body
    yields for it, that is (lemma [for_body_emit]) the [delta] of an
    event of type [response.output_text.delta], when truthy. *)
Definition delta (line : jsstring) : list JSValue :=
  match for_body line with
  | Emit v => [v]
  | _ => []
  end.

(** The Deltas of a list of lines, in order. *)
Definition deltas (lines : list jsstring) : list JSValue :=
  flat_map delta lines.

(** The lines before the first sentinel. *)
Fixpoint before_sentinel (lines : list jsstring) : list jsstring :=
  match lines with
  | [] => []
  | l :: ls => if is_sentinel l then [] else l :: before_sentinel ls
  end.

Definition has_sentinel (lines : list jsstring) : bool :=
  existsb is_sentinel lines.

(** How the sequence ends when no sentinel stops it: with the
    transport. *)
Definition transport_end (c : closing) : outcome :=
  match c with
  | EndOfStream => Done
  | ReadFailure e => Failed e
  end.

(** The sequence a stream stands for: the Deltas of the candidate lines
    before the first sentinel, in order; it ends well at a sentinel,
    with the transport otherwise. *)
Definition OutputSequence (chunks : list (list Z)) (c : closing)
  : list JSValue * outcome :=
  let lines := records (received chunks) in
  (deltas (before_sentinel lines),
   if has_sentinel lines then Done else transport_end c).

Definition suffix (s text : jsstring) : Prop := exists pre, text = pre ++ s.

(** [s] is the longest suffix of [text] with no line terminator. *)
Definition longest_open_suffix (s text : jsstring) : Prop :=
  suffix s text /\ ~ In JSString.LF s /\
  forall s', suffix s' text -> ~ In JSString.LF s' ->
             (List.length s' <= List.length s)%nat.

(** What the generator keeps true of its variables: the chunks are
    those consumed and those pending, the decoder has seen the former,
    and the buffer is the piece after their last line terminator. *)
Definition consumed_so_far (chunks : list (list Z)) (c : closing)
  (st : GenState) (consumed : list (list Z)) : Prop :=
  chunks = consumed ++ pending (reader st)
  /\ close (reader st) = c
  /\ decoder st = fst (TextDecoder.decode TextDecoder.init (concat consumed))
  /\ buffer st = remainder (received consumed).

(** *** Deltas, in the words of the specification

    A Record is a line of the form [data: <payload>]; an Event is the
    JSON value of its payload; the discriminant of an Event is its
    [type], its text field is its [delta]. *)

(** The [delta] of the Event of a line, when the Event has the
    discriminant of an output text delta and the [delta] is truthy. *)
Definition event_delta (line : jsstring) : list JSValue :=
  if JSString.startsWith line DATA_MARKER then
    match JSON.parse (payload line) with
    | inr (JObj props) =>
        match JS.lookup props KEY_type, JS.lookup props KEY_delta with
        | Some (JStr type), Some d =>
            if JSString.eqb type OUTPUT_TEXT_DELTA && JS.truthy d
            then [d] else []
        | _, _ => []
        end
    | _ => []
    end
  else [].

(** The Delta text of a line: the text field of an Event that has the
    discriminant of an output text delta, when it is a text and is not
    empty. *)
Definition delta_text (line : jsstring) : list JSValue :=
  if JSString.startsWith line DATA_MARKER then
    match JSON.parse (payload line) with
    | inr (JObj props) =>
        match JS.lookup props KEY_type, JS.lookup props KEY_delta with
        | Some (JStr type), Some (JStr s) =>
            if JSString.eqb type OUTPUT_TEXT_DELTA && negb (JSString.eqb s [])
            then [JStr s] else []
        | _, _ => []
        end
    | _ => []
    end
  else [].

(** A value that is a text. *)
Definition is_text (v : JSValue) : Prop := exists s, v = JStr s.

End Spec.

(** The bytes of a source literal, with ['] standing for the double
    quote; [line] adds the line terminator. *)
Fixpoint bytes_of (s : string) : list Z :=
  match s with
  | EmptyString => []
  | String a s' =>
      (if Ascii.eqb a "'" then 34 else Z.of_N (N_of_ascii a)) :: bytes_of s'
  end.

Definition line_of (s : string) : list Z := bytes_of s ++ [10].

(** A line the [for] loop looks into: it starts with the marker
    (line 107). *)
Definition marked (line : jsstring) : bool :=
  JSString.startsWith line DATA_MARKER.

(** U+000D. *)
Definition CR : Z := 13.

(** A text of white space only, as [trim] sees it. *)
Definition spaces (ws : jsstring) : Prop :=
  Forall (fun c => JSString.is_trim_space c = true) ws.

(** One byte to a chunk. *)
Definition bytewise (bytes : list Z) : list (list Z) :=
  map (fun b => [b]) bytes.

(** *** Streams to run the generator on *)

Module Sample.

Definition hel : string :=
  "data: {'type':'response.output_text.delta','delta':'Hel'}".
Definition lo : string :=
  "data: {'type':'response.output_text.delta','delta':'lo'}".
Definition wide : string :=
  "data: {'type':'response.output_text.delta','delta':'é€😀'}".
Definition sentinel : string := "data: [DONE]".
Definition late : string :=
  "data: {'type':'response.output_text.delta','delta':'late'}".
Definition number_delta : string :=
  "data: {'type':'response.output_text.delta','delta':5}".
Definition lifecycle : string :=
  "data: {'type':'response.completed'}".
Definition malformed : string := "data: {'type':".

(** The two chunks of the specification's example. *)
Definition chunks : list (list Z) :=
  [line_of hel; line_of lo ++ line_of sentinel].

(** A stream with characters of two, three and four bytes, and a
    record after the sentinel. *)
Definition chunks_late : list (list Z) :=
  [line_of hel;
   line_of lo ++ line_of wide ++ line_of sentinel ++ line_of late].

(** No sentinel. *)
Definition chunks_open : list (list Z) :=
  [line_of hel; line_of lo].

(** An event whose [delta] is a number, then the sentinel. *)
Definition chunks_number : list (list Z) :=
  [line_of number_delta ++ line_of sentinel].

(** No sentinel, and a last record with no line terminator. *)
Definition chunks_cut : list (list Z) :=
  [line_of hel; line_of lo; bytes_of late].

(** The generator after its first step on a chunk that holds the
    sentinel and a record after it: the sentinel is the next line. *)
Definition at_sentinel : GenState :=
  snd (step (streamChunks
               {| pending := [line_of sentinel ++ line_of late; line_of late];
                  close := EndOfStream |})).

(** The same before a malformed payload. *)
Definition at_malformed : GenState :=
  snd (step (streamChunks
               {| pending := [line_of malformed ++ line_of hel; line_of lo];
                  close := EndOfStream |})).

Definition Hel : JSValue := JStr (JSString.lit "Hel").
Definition Lo : JSValue := JStr (JSString.lit "lo").

(** U+00E9, U+20AC and the surrogate pair of U+1F600. *)
Definition Wide : JSValue := JStr [233; 8364; 55357; 56832].

(** A call of a user with a key of their own. *)
Definition call_with_key : Call.t :=
  {| Call.messages := [{| isAI := JBool false;
                          content := JSString.lit "hello" |}];
     Call.whoopData := JUndefined;
     Call.max_tokens := JUndefined;
     Call.temperature := JUndefined;
     Call.user := JObj [(KEY_openaiApiKey, JStr (JSString.lit "sk-user"))];
     Call.systemPromptPrefix := None |}.

(** A [JSON.stringify] that writes every value as [{}]: the witnesses
    below do not read the body. *)
Definition stringify_any (v : JSValue) : throws jsstring :=
  ret (JSString.lit "{}").

(** A [fetch] that answers with the stream of the specification. *)
Definition fetch_ok (request : Posted) : throws Initiator.Response :=
  ret {| Initiator.ok := true; Initiator.text := ret EmptyString;
         Initiator.body := Some {| pending := chunks;
                                   close := EndOfStream |} |}.


End Sample.

(** Boolean range tests of the decoder, as inequalities. *)
Ltac ranges :=
  unfold TextDecoder.in_range in *;
  repeat match goal with
    | H : (_ && _) = true |- _ => apply andb_true_iff in H; destruct H
    | H : (_ && _) = false |- _ => apply andb_false_iff in H
    | H : negb _ = true |- _ => apply negb_true_iff in H
    | H : negb _ = false |- _ => apply negb_false_iff in H
    | H : (_ <=? _) = true |- _ => apply Z.leb_le in H
    | H : (_ <=? _) = false |- _ => apply Z.leb_gt in H
    | H : (_ =? _) = true |- _ => apply Z.eqb_eq in H
    | H : (_ =? _) = false |- _ => apply Z.eqb_neq in H
    end.

(* ================================================================== *)
(** ** Lines of a text *)
(* ================================================================== *)

Section Lines.

Import JSString Spec.

Lemma split_not_nil (sep : Z) (s : jsstring) : split sep s <> [].
Proof.
  destruct s as [|c s]; simpl; [discriminate|].
  destruct (c =? sep); [discriminate|].
  destruct (split sep s); discriminate.
Qed.

Lemma last_cons (A : Type) (l : list A) (x d : A) :
  last l x = last (x :: l) d.
Proof.
  revert x d. induction l as [|y l IH]; intros x d; [reflexivity|].
  change (last (x :: y :: l) d) with (last (y :: l) d).
  now rewrite <- (IH y x), <- (IH y d).
Qed.

Lemma last_app_r (A : Type) (l l' : list A) (d : A) :
  l' <> [] -> last (l ++ l') d = last l' d.
Proof.
  intros H. induction l as [|x l IH]; [reflexivity|].
  simpl app. rewrite <- IH. simpl.
  destruct (l ++ l') eqn:E; [|reflexivity].
  apply app_eq_nil in E. tauto.
Qed.

Lemma pop_split (text : jsstring) :
  pop (split LF text) = (Some (remainder text), records text).
Proof.
  unfold pop, remainder, records.
  pose proof (split_not_nil LF text) as H.
  destruct (split LF text) as [|x l]; [congruence|].
  now rewrite (last_cons l x []).
Qed.

Lemma split_cons_LF (s : jsstring) : split LF (LF :: s) = [] :: split LF s.
Proof. reflexivity. Qed.

Lemma split_cons_other (c : Z) (s : jsstring) :
  c <> LF ->
  exists l ls, split LF s = l :: ls /\ split LF (c :: s) = (c :: l) :: ls.
Proof.
  intros Hc. simpl. destruct (Z.eqb_spec c LF) as [->|_]; [congruence|].
  pose proof (split_not_nil LF s) as H.
  destruct (split LF s) as [|l ls]; [congruence|]. eauto.
Qed.

Lemma records_cons_LF (s : jsstring) : records (LF :: s) = [] :: records s.
Proof.
  unfold records. rewrite split_cons_LF.
  pose proof (split_not_nil LF s) as H. simpl.
  destruct (split LF s); [congruence|reflexivity].
Qed.

Lemma remainder_cons_LF (s : jsstring) : remainder (LF :: s) = remainder s.
Proof.
  unfold remainder. rewrite split_cons_LF.
  pose proof (split_not_nil LF s) as H. simpl.
  destruct (split LF s); [congruence|reflexivity].
Qed.

(** Splitting a text that grows: the complete lines stay, and the open
    piece is split again with what was added. *)
Lemma split_app (a b : jsstring) :
  split LF (a ++ b) = records a ++ split LF (remainder a ++ b).
Proof.
  induction a as [|c a IH]; [reflexivity|].
  destruct (Z.eq_dec c LF) as [->|Hc].
  - rewrite records_cons_LF, remainder_cons_LF. simpl app at 1.
    rewrite split_cons_LF, IH. reflexivity.
  - destruct (split_cons_other (a ++ b) Hc) as (l & ls & E1 & E2).
    destruct (split_cons_other a Hc) as (l' & ls' & E1' & E2').
    change ((c :: a) ++ b) with (c :: a ++ b). rewrite E2.
    unfold records, remainder in *. rewrite E2'. rewrite E1' in IH.
    rewrite E1 in IH. destruct ls' as [|m ls'].
    + cbn [removelast last app] in IH |- *.
      destruct (split_cons_other (l' ++ b) Hc) as (l2 & ls2 & E3 & E4).
      rewrite E4. rewrite E3 in IH. congruence.
    + cbn [removelast last app] in IH |- *.
      injection IH as -> ->. reflexivity.
Qed.

Lemma records_app (a b : jsstring) :
  records (a ++ b) = records a ++ records (remainder a ++ b).
Proof.
  unfold records at 1. rewrite split_app.
  apply removelast_app, split_not_nil.
Qed.

Lemma remainder_app (a b : jsstring) :
  remainder (a ++ b) = remainder (remainder a ++ b).
Proof.
  unfold remainder at 1. rewrite split_app.
  apply last_app_r, split_not_nil.
Qed.

Lemma remainder_open (text : jsstring) : ~ In LF (remainder text).
Proof.
  induction text as [|c text IH]; [intros []|].
  destruct (Z.eq_dec c LF) as [->|Hc].
  - now rewrite remainder_cons_LF.
  - destruct (split_cons_other text Hc) as (l & ls & E1 & E2).
    unfold remainder in *. rewrite E2. rewrite E1 in IH.
    destruct ls; simpl in *; [intuition congruence|exact IH].
Qed.

(** When nothing of [b] ends a line, [b] only extends the open piece. *)
Lemma split_open (b : jsstring) : ~ In LF b -> split LF b = [b].
Proof.
  induction b as [|c b IH]; intros H; [reflexivity|].
  simpl in H. simpl.
  destruct (Z.eqb_spec c LF) as [->|_]; [tauto|].
  rewrite IH by tauto. reflexivity.
Qed.

Lemma records_open (a b : jsstring) :
  ~ In LF b -> records (a ++ b) = records a.
Proof.
  intros H. rewrite records_app. unfold records at 2.
  rewrite split_open; [simpl; apply app_nil_r|].
  intros Hin. apply in_app_or in Hin as [Hin|Hin]; [|tauto].
  exact (remainder_open a Hin).
Qed.

Lemma split_single (s l : jsstring) :
  split LF s = [l] -> s = l /\ ~ In LF s.
Proof.
  revert l. induction s as [|c s IH]; intros l H.
  - injection H as <-. split; [reflexivity|intros []].
  - destruct (Z.eq_dec c LF) as [->|Hc].
    + rewrite split_cons_LF in H. injection H as _ H.
      now apply split_not_nil in H.
    + destruct (split_cons_other s Hc) as (l' & ls & E1 & E2).
      rewrite E2 in H. injection H as <- ->.
      destruct (IH _ E1) as [-> Hn]. split; [reflexivity|].
      simpl. intuition congruence.
Qed.

(** A text is its complete lines, each with its terminator, and then
    the open piece. *)
Lemma text_decomposition (text : jsstring) :
  exists pre, text = pre ++ remainder text
              /\ (pre = [] \/ exists p, pre = p ++ [LF]).
Proof.
  induction text as [|c text (pre & E & Hpre)].
  - exists []. split; [reflexivity|now left].
  - destruct (Z.eq_dec c LF) as [->|Hc].
    + rewrite remainder_cons_LF. exists (LF :: pre). split.
      * simpl. congruence.
      * right. destruct Hpre as [->|(p & ->)];
          [now exists []|now exists (LF :: p)].
    + destruct (split_cons_other text Hc) as (l & ls & E1 & E2).
      unfold remainder in *. rewrite E2. rewrite E1 in E.
      destruct ls as [|m ls].
      * exists []. split; [|now left].
        apply split_single in E1. destruct E1 as [-> _]. reflexivity.
      * exists (c :: pre). split.
        -- cbn [last] in E |- *. simpl. congruence.
        -- right. destruct Hpre as [->|(p & ->)]; [|now exists (c :: p)].
           exfalso. simpl app in E.
           assert (H : split LF text = [text]).
           { apply split_open. rewrite E at 1.
             pose proof (remainder_open text) as R.
             unfold remainder in R. now rewrite E1 in R. }
           rewrite E1 in H. discriminate.
Qed.

Lemma remainder_longest (text : jsstring) :
  longest_open_suffix (remainder text) text.
Proof.
  destruct (text_decomposition text) as (pre & E & Hpre).
  split; [now exists pre|]. split; [apply remainder_open|].
  intros s' (pre' & E') Hs'.
  destruct (Nat.le_gt_cases (List.length s') (List.length (remainder text)))
    as [Hle|Hgt]; [exact Hle|exfalso].
  destruct Hpre as [->|(p & ->)].
  - apply (f_equal (@List.length Z)) in E, E'.
    rewrite length_app in E'. simpl in E. lia.
  - assert (E2 : pre' ++ s' = (p ++ [LF]) ++ remainder text) by congruence.
    clear E E'. rename E2 into E.
    assert (Hlen : (List.length pre' <= List.length p)%nat).
    { apply (f_equal (@List.length Z)) in E.
      rewrite !length_app in E. simpl in E. lia. }
    rewrite <- app_assoc in E.
    assert (Hs : exists x, s' = x ++ [LF] ++ remainder text).
    { clear - E Hlen. revert p E Hlen.
      induction pre' as [|a pre' IH]; intros p E Hlen.
      - exists p. exact E.
      - destruct p as [|b p]; [simpl in Hlen; lia|].
        simpl in E. injection E as _ E.
        apply (IH p E). simpl in Hlen. lia. }
    destruct Hs as (x & ->). apply Hs'.
    apply in_or_app. right. now left.
Qed.

End Lines.

(* ================================================================== *)
(** ** The decoder over chunks *)
(* ================================================================== *)

Section Streaming.

Import TextDecoder.

Lemma process_all_app (d : utf8) (a b : list Z) :
  process_all d (a ++ b) =
    (fst (process_all (fst (process_all d a)) b),
     snd (process_all d a) ++ snd (process_all (fst (process_all d a)) b)).
Proof.
  revert d. induction a as [|x a IH]; intros d; simpl.
  - now destruct (process_all d b).
  - destruct (process d x) as [d1 o1]. rewrite IH.
    destruct (process_all d1 a) as [d2 o2]. simpl.
    now rewrite app_assoc.
Qed.

Lemma serialize_true (out : list Z) :
  serialize true out = (true, flat_map code_units out).
Proof. now destruct out. Qed.

Lemma serialize_app (seen : bool) (o1 o2 : list Z) :
  serialize seen (o1 ++ o2) =
    (fst (serialize (fst (serialize seen o1)) o2),
     snd (serialize seen o1) ++ snd (serialize (fst (serialize seen o1)) o2)).
Proof.
  destruct o1 as [|c o1].
  - simpl. now destruct (serialize seen o2).
  - change (fst (serialize seen (c :: o1))) with true.
    rewrite serialize_true. unfold serialize. simpl app.
    destruct seen, (c =? 65279); cbn [fst snd negb andb];
      now rewrite <- flat_map_app.
Qed.

(** Decoding is indifferent to where a chunk is cut. *)
Lemma decode_app (td : t) (a b : list Z) :
  decode td (a ++ b) =
    (fst (decode (fst (decode td a)) b),
     snd (decode td a) ++ snd (decode (fst (decode td a)) b)).
Proof.
  unfold decode. rewrite process_all_app.
  destruct (process_all (decoder td) a) as [d1 o1]. cbn [fst snd].
  rewrite serialize_app.
  destruct (serialize (BOM_seen td) o1) as [s1 t1].
  cbn [fst snd decoder BOM_seen].
  destruct (process_all d1 b) as [d2 o2]. cbn [fst snd].
  now destruct (serialize s1 o2).
Qed.

Lemma decode_nil (td : t) : decode td [] = (td, []).
Proof. now destruct td. Qed.

End Streaming.

(* ================================================================== *)
(** ** The generator, step by step and as a whole *)
(* ================================================================== *)

Section Generator.

Lemma step_for_nil (st : GenState) :
  at_ st = InFor [] -> step st = (Tau, goto st AtWhile).
Proof. intros H. unfold step. now rewrite H. Qed.

Lemma step_for_cons (st : GenState) (line : jsstring) (rest : list jsstring) :
  at_ st = InFor (line :: rest) ->
  step st = match for_body line with
            | Stop => (Return, goto st Completed)
            | Emit v => (Yield v, goto st (InFor rest))
            | Skip => (Tau, goto st (InFor rest))
            end.
Proof. intros H. unfold step. now rewrite H. Qed.

Lemma step_completed (st : GenState) :
  at_ st = Completed -> step st = (Return, st).
Proof. intros H. unfold step. now rewrite H. Qed.

(** The [for] loop: it returns, or falls through to the loop test. *)
Lemma trace_for (lines : list jsstring) :
  forall (st : GenState) (ys : list JSValue) (o : outcome),
    at_ st = InFor lines ->
    (snd (run_for lines) = true -> trace st (fst (run_for lines)) Done)
    /\ (snd (run_for lines) = false ->
        trace (goto st AtWhile) ys o ->
        trace st (fst (run_for lines) ++ ys) o).
Proof.
  induction lines as [|line rest IH]; intros st ys o Hat.
  - split; [discriminate|]. intros _ H.
    eapply trace_tau; [now apply step_for_nil|exact H].
  - pose proof (step_for_cons st Hat) as Hs.
    destruct (IH (goto st (InFor rest)) ys o eq_refl) as [IH1 IH2].
    simpl run_for. destruct (for_body line) as [| |v].
    + split; intros E; [|intros H]; (eapply trace_tau; [exact Hs|]); auto.
    + split; [|discriminate]. intros _. eapply trace_return. exact Hs.
    + destruct (run_for rest) as [zs stopped]. simpl in *.
      split; intros E; [|intros H];
        (eapply trace_yield; [exact Hs|]); auto.
Qed.

(** The [while] loop, entered with [done] false. *)
Lemma trace_while (chunks : list (list Z)) :
  forall st : GenState,
    at_ st = AtWhile -> done st = false -> pending (reader st) = chunks ->
    trace st
      (fst (run_while chunks (close (reader st)) (decoder st) (buffer st)))
      (snd (run_while chunks (close (reader st)) (decoder st) (buffer st))).
Proof.
  induction chunks as [|bytes chunks IH]; intros st Hat Hdone Hp.
  - simpl. destruct (close (reader st)) as [|e] eqn:Hc.
    + eapply trace_tau.
      * unfold step, read. rewrite Hat, Hdone, Hp, Hc. reflexivity.
      * eapply trace_return. reflexivity.
    + eapply trace_throw. unfold step, read.
      rewrite Hat, Hdone, Hp, Hc. reflexivity.
  - simpl.
    destruct (TextDecoder.decode (decoder st) bytes) as [td text] eqn:Hd.
    destruct (JSString.pop (JSString.split JSString.LF (buffer st ++ text)))
      as [popped lines] eqn:Hpop.
    set (st1 := {| reader := {| pending := chunks; close := close (reader st) |};
                   decoder := td; done := false;
                   buffer := nonnull popped; at_ := InFor lines |}).
    assert (Hs : step st = (Tau, st1)).
    { unfold step, read. rewrite Hat, Hdone, Hp. simpl.
      rewrite Hd, Hpop. reflexivity. }
    specialize (IH (goto st1 AtWhile) eq_refl eq_refl eq_refl).
    simpl in IH.
    destruct (run_while chunks (close (reader st)) td (nonnull popped))
      as [ys' o'].
    destruct (trace_for (lines := lines) st1 ys' o' eq_refl) as [T1 T2].
    destruct (run_for lines) as [ys stopped]. simpl in *.
    eapply trace_tau; [exact Hs|].
    destruct stopped; simpl; auto.
Qed.

Lemma trace_loop (st : GenState) :
  at_ st = AtWhile -> trace st (fst (run_loop st)) (snd (run_loop st)).
Proof.
  intros Hat. unfold run_loop. destruct (done st) eqn:Hdone.
  - eapply trace_return. unfold step. rewrite Hat, Hdone. reflexivity.
  - now apply trace_while.
Qed.

(** The sequence ends, and [run] computes what the consumer sees. *)
Lemma trace_run (st : GenState) : trace st (fst (run st)) (snd (run st)).
Proof.
  unfold run. destruct (at_ st) as [|lines|] eqn:Hat.
  - now apply trace_loop.
  - pose proof (trace_loop (goto st AtWhile) eq_refl) as T.
    change (run_loop (goto st AtWhile)) with (run_loop st) in T.
    destruct (run_loop st) as [ys' o'].
    destruct (trace_for st ys' o' Hat) as [T1 T2].
    destruct (run_for lines) as [ys stopped]. simpl in *.
    destruct stopped; simpl; auto.
  - eapply trace_return. now apply step_completed.
Qed.

(** The consumer sees one thing only. *)
Lemma trace_deterministic (st : GenState) (ys ys' : list JSValue)
  (o o' : outcome) :
  trace st ys o -> trace st ys' o' -> ys = ys' /\ o = o'.
Proof.
  intros T. revert ys' o'.
  induction T as [st st1 ys o Hs T IH|st st1 v ys o Hs T IH|st st1 Hs|st st1 e Hs];
    intros ys' o' T'; inversion T'; subst;
    try (rewrite Hs in *; congruence).
  - apply IH. congruence.
  - assert (E : (Yield v, st1) = (Yield v0, st')) by congruence.
    injection E as -> ->. destruct (IH _ _ H0) as [-> ->]. now split.
  - now split.
  - split; congruence.
Qed.

Lemma trace_iff_run (st : GenState) (ys : list JSValue) (o : outcome) :
  trace st ys o <-> run st = (ys, o).
Proof.
  pose proof (trace_run st) as T. split.
  - intros T'. destruct (trace_deterministic T T') as [E1 E2].
    destruct (run st); simpl in *; congruence.
  - intros E. now rewrite E in T.
Qed.

End Generator.

(* ================================================================== *)
(** ** The generator against the stream as a whole *)
(* ================================================================== *)

Section WholeStream.

Import Spec.

Lemma for_body_stop (line : jsstring) :
  for_body line = Stop <-> is_sentinel line = true.
Proof.
  unfold for_body, is_sentinel.
  destruct (JSString.startsWith line DATA_MARKER); simpl;
    [|split; discriminate].
  destruct (JSString.eqb (payload line) DONE_SENTINEL); [tauto|].
  destruct (try_block (payload line)) as [e|[v|]]; split; discriminate.
Qed.

Lemma run_for_spec (lines : list jsstring) :
  run_for lines = (deltas (before_sentinel lines), has_sentinel lines).
Proof.
  induction lines as [|line rest IH]; [reflexivity|].
  cbn [run_for before_sentinel has_sentinel existsb]. rewrite IH.
  pose proof (for_body_stop line) as Hs.
  destruct (is_sentinel line).
  - now rewrite (proj2 Hs eq_refl).
  - unfold deltas, has_sentinel. cbn [flat_map orb].
    change (delta line)
      with (match for_body line with Emit v => [v] | _ => [] end).
    destruct (for_body line); [reflexivity| |reflexivity].
    destruct Hs as [Hs _]. now specialize (Hs eq_refl).
Qed.

Lemma before_sentinel_app (l1 l2 : list jsstring) :
  before_sentinel (l1 ++ l2) =
    if has_sentinel l1 then before_sentinel l1
    else l1 ++ before_sentinel l2.
Proof.
  induction l1 as [|l l1 IH]; [reflexivity|]. simpl.
  destruct (is_sentinel l); [reflexivity|]. simpl. rewrite IH.
  now destruct (has_sentinel l1).
Qed.

Lemma before_sentinel_all (lines : list jsstring) :
  has_sentinel lines = false -> before_sentinel lines = lines.
Proof.
  induction lines as [|l lines IH]; [reflexivity|]. simpl.
  destruct (is_sentinel l); [discriminate|]. simpl. intros H.
  now rewrite IH.
Qed.

Lemma run_for_app (l1 l2 : list jsstring) :
  run_for (l1 ++ l2) =
    if snd (run_for l1) then run_for l1
    else (fst (run_for l1) ++ fst (run_for l2), snd (run_for l2)).
Proof.
  rewrite !run_for_spec. simpl.
  unfold has_sentinel. rewrite existsb_app. fold (has_sentinel l1).
  rewrite before_sentinel_app.
  destruct (has_sentinel l1) eqn:E; [reflexivity|]. simpl.
  unfold deltas. rewrite flat_map_app.
  now rewrite (before_sentinel_all _ E).
Qed.

(** The loop from a state whose buffer holds no line terminator: the
    lines it goes through are those of the buffer and of all the text
    still to come. *)
Lemma run_while_spec (chunks : list (list Z)) (c : closing) :
  forall (td : TextDecoder.t) (buf : jsstring),
    ~ In JSString.LF buf ->
    run_while chunks c td buf =
      (fst (run_for (records (buf ++ snd (TextDecoder.decode td (concat chunks))))),
       if snd (run_for (records (buf ++ snd (TextDecoder.decode td (concat chunks)))))
       then Done else transport_end c).
Proof.
  induction chunks as [|bytes chunks IH]; intros td buf Hbuf.
  - simpl concat. rewrite decode_nil. simpl snd. rewrite app_nil_r.
    unfold records. rewrite (split_open _ Hbuf). simpl.
    now destruct c.
  - simpl concat. rewrite decode_app. simpl run_while.
    destruct (TextDecoder.decode td bytes) as [td1 t1]. cbn [fst snd].
    rewrite pop_split. cbn [nonnull].
    rewrite (IH td1 (remainder (buf ++ t1)) (remainder_open _)).
    set (t2 := snd (TextDecoder.decode td1 (concat chunks))).
    rewrite app_assoc, (records_app (buf ++ t1) t2), run_for_app.
    destruct (run_for (records (buf ++ t1))) as [ys stopped].
    destruct stopped; reflexivity.
Qed.

(** The generator yields the [OutputSequence] of its stream. *)
Lemma run_streamChunks (chunks : list (list Z)) (c : closing) :
  run (streamChunks {| pending := chunks; close := c |})
  = OutputSequence chunks c.
Proof.
  unfold run, run_loop, streamChunks, OutputSequence, received. simpl.
  rewrite run_while_spec by (intros []). simpl.
  now rewrite run_for_spec.
Qed.

Lemma trace_streamChunks (chunks : list (list Z)) (c : closing)
  (ys : list JSValue) (o : outcome) :
  trace (streamChunks {| pending := chunks; close := c |}) ys o
  <-> OutputSequence chunks c = (ys, o).
Proof. now rewrite trace_iff_run, run_streamChunks. Qed.

End WholeStream.

(** The example of the specification: its two chunks yield [Hel] and
    [lo], and the sequence ends. *)
Example specification_example :
  trace (streamChunks {| pending := Sample.chunks; close := EndOfStream |})
    [Sample.Hel; Sample.Lo] Done.
Proof. apply trace_iff_run. reflexivity. Qed.

(* ================================================================== *)
(** ** Line terminators through the decoder *)
(* ================================================================== *)

Section OpenBytes.

Import TextDecoder.

Lemma utf8_init_ok : utf8_ok utf8_init.
Proof. unfold utf8_ok, utf8_init. simpl. lia. Qed.

Lemma land_low (b n : Z) : 0 <= n -> Z.land b (Z.ones n) = b mod 2 ^ n.
Proof. apply Z.land_ones. Qed.

Lemma lor_shift_low (cp b : Z) :
  Z.lor (Z.shiftl cp 6) (Z.land b 63) = cp * 64 + b mod 64.
Proof.
  assert (H : Z.land (Z.shiftl cp 6) (Z.land b 63) = 0).
  { apply Z.bits_inj'. intros n Hn.
    rewrite Z.land_spec, Z.bits_0.
    destruct (Z.lt_ge_cases n 6) as [Hlt|Hge].
    - now rewrite Z.shiftl_spec_low by lia.
    - change 63 with (Z.ones 6).
      rewrite Z.land_spec, Z.ones_spec_high by lia.
      now rewrite !andb_false_r. }
  pose proof (Z.add_lor_land (Z.shiftl cp 6) (Z.land b 63)) as E.
  rewrite H in E.
  set (x := Z.lor (Z.shiftl cp 6) (Z.land b 63)) in *.
  rewrite Z.shiftl_mul_pow2 in E by lia.
  change 63 with (Z.ones 6) in E. rewrite land_low in E by lia.
  change (2 ^ 6) with 64 in E. lia.
Qed.

(** One byte: the decoder stays well formed, and a code point it hands
    out is the byte itself or is at least 16. *)
Lemma handler_ok (d : utf8) (byte : Z) :
  utf8_ok d ->
  utf8_ok (fst (handler d byte))
  /\ forall cp, snd (handler d byte) = CodePoint cp -> cp = byte \/ 16 <= cp.
Proof.
  intros (Hcp & Hlo & Hup & Hor). unfold handler.
  destruct (bytes_needed d =? 0) eqn:Hn.
  - destruct (in_range 0 127 byte) eqn:R1.
    { split; [unfold utf8_ok; tauto|]. simpl. intros cp [= <-]. now left. }
    destruct (in_range 194 223 byte) eqn:R2.
    { split; [|discriminate]. unfold utf8_ok. simpl. ranges.
      change 31 with (Z.ones 5). rewrite land_low by lia.
      change (2 ^ 5) with 32. repeat split; try lia;
        Z.to_euclidean_division_equations; lia. }
    destruct (in_range 224 239 byte) eqn:R3.
    { split; [|discriminate]. unfold utf8_ok. simpl. ranges.
      change 15 with (Z.ones 4). rewrite land_low by lia.
      change (2 ^ 4) with 16.
      destruct (Z.eqb_spec byte 224), (Z.eqb_spec byte 237);
        repeat split; try lia; Z.to_euclidean_division_equations; lia. }
    destruct (in_range 240 244 byte) eqn:R4.
    { split; [|discriminate]. unfold utf8_ok. simpl. ranges.
      change 7 with (Z.ones 3). rewrite land_low by lia.
      change (2 ^ 3) with 8.
      destruct (Z.eqb_spec byte 240), (Z.eqb_spec byte 244);
        repeat split; try lia; Z.to_euclidean_division_equations; lia. }
    split; [unfold utf8_ok; tauto|discriminate].
  - destruct (negb (in_range (lower_boundary d) (upper_boundary d) byte))
      eqn:R.
    { split; [apply utf8_init_ok|discriminate]. }
    ranges. rewrite lor_shift_low.
    assert (Hcp' : 16 <= code_point d * 64 + byte mod 64).
    { destruct Hor as [?|[?|?]]; [congruence| |];
        Z.to_euclidean_division_equations; lia. }
    destruct (negb (bytes_seen d + 1 =? bytes_needed d)).
    + split; [|discriminate]. unfold utf8_ok. simpl. lia.
    + split; [apply utf8_init_ok|]. simpl. intros cp [= <-]. now right.
Qed.

Lemma process_ok (d : utf8) (byte : Z) :
  utf8_ok d ->
  utf8_ok (fst (process d byte))
  /\ forall cp, In cp (snd (process d byte)) ->
                cp = byte \/ 16 <= cp.
Proof.
  intros Hd. unfold process.
  destruct (handler_ok byte Hd) as [H1 H2].
  destruct (handler d byte) as [d1 [|cp1| |]]; simpl in *.
  - split; [exact H1|intros cp []].
  - split; [exact H1|]. intros cp [<-|[]]. now apply H2.
  - split; [exact H1|]. intros cp [<-|[]]. right. unfold REPLACEMENT. lia.
  - destruct (handler_ok byte H1) as [H3 H4].
    destruct (handler d1 byte) as [d2 [|cp2| |]]; simpl in *;
      (split; [exact H3|]); unfold REPLACEMENT;
      intros cp Hin; simpl in Hin;
      repeat (destruct Hin as [<-|Hin]; [try (right; lia)|]);
      try contradiction.
    now apply H4.
Qed.

Lemma process_all_ok (bytes : list Z) :
  forall d : utf8,
    utf8_ok d ->
    utf8_ok (fst (process_all d bytes))
    /\ forall cp, In cp (snd (process_all d bytes)) ->
                  In cp bytes \/ 16 <= cp.
Proof.
  induction bytes as [|b bytes IH]; intros d Hd; simpl.
  - split; [exact Hd|intros cp []].
  - destruct (process_ok b Hd) as [H1 H2].
    destruct (process d b) as [d1 o1]. simpl in *.
    destruct (IH d1 H1) as [H3 H4].
    destruct (process_all d1 bytes) as [d2 o2]. simpl in *.
    split; [exact H3|]. intros cp Hin.
    apply in_app_or in Hin as [Hin|Hin].
    + destruct (H2 cp Hin); auto.
    + destruct (H4 cp Hin); auto.
Qed.

Lemma code_units_high (cp u : Z) :
  In u (code_units cp) -> u = cp \/ 16 <= u.
Proof.
  unfold code_units. destruct (Z.ltb_spec cp 65536).
  - intros [<-|[]]. now left.
  - pose proof (Z.shiftr_nonneg (cp - 65536) 10) as S.
    pose proof (Z.land_nonneg (cp - 65536) 1023) as L.
    intros [<-|[<-|[]]]; right; lia.
Qed.

Lemma serialize_subset (seen : bool) (out : list Z) (u : Z) :
  In u (snd (serialize seen out)) -> exists cp, In cp out /\ In u (code_units cp).
Proof.
  destruct out as [|c out]; simpl; [intros []|].
  intros Hin. apply in_flat_map in Hin as (cp & Hcp & Hu).
  exists cp. split; [|exact Hu].
  destruct (negb seen && (c =? 65279)); [now right|exact Hcp].
Qed.

(** A chunk with no byte [0x0A] decodes to a text with no line
    terminator, whatever came before it. *)
Lemma decode_open (td : t) (bytes : list Z) :
  utf8_ok (decoder td) -> ~ In 10 bytes ->
  ~ In JSString.LF (snd (decode td bytes)).
Proof.
  intros Hd Hb Hin. unfold decode in Hin.
  destruct (process_all_ok bytes Hd) as [_ H].
  destruct (process_all (decoder td) bytes) as [d1 out]. simpl in H.
  pose proof (serialize_subset (BOM_seen td) out JSString.LF) as S.
  destruct (serialize (BOM_seen td) out) as [s1 text1]. simpl in *.
  destruct (S Hin) as (cp & Hcp & Hu).
  unfold JSString.LF in *.
  destruct (code_units_high _ _ Hu) as [<-|?]; [|lia].
  destruct (H _ Hcp); [tauto|lia].
Qed.

Lemma decode_ok (td : t) (bytes : list Z) :
  utf8_ok (decoder td) -> utf8_ok (decoder (fst (decode td bytes))).
Proof.
  intros Hd. unfold decode.
  destruct (process_all_ok bytes Hd) as [H _].
  destruct (process_all (decoder td) bytes) as [d1 out].
  now destruct (serialize (BOM_seen td) out).
Qed.

End OpenBytes.

(* ================================================================== *)
(** ** The properties of the specification *)
(* ================================================================== *)

Section Properties.

Import Spec.

Lemma eqb_eq (a b : jsstring) : JSString.eqb a b = true <-> a = b.
Proof.
  revert b. induction a as [|x a IH]; intros [|y b]; simpl;
    try (split; [discriminate|congruence]); [tauto|].
  rewrite andb_true_iff, Z.eqb_eq, IH. split; [intros []|intros [=]];
    subst; auto.
Qed.

Lemma OutputSequence_concat (chunks chunks' : list (list Z)) (c : closing) :
  concat chunks = concat chunks' ->
  OutputSequence chunks c = OutputSequence chunks' c.
Proof. unfold OutputSequence, received. now intros ->. Qed.

Lemma concat_bytewise (bytes : list Z) : concat (bytewise bytes) = bytes.
Proof.
  induction bytes as [|b bytes IH]; [reflexivity|].
  simpl. now rewrite IH.
Qed.

Lemma concat_single (bytes : list Z) : concat [bytes] = bytes.
Proof. simpl. apply app_nil_r. Qed.

Lemma before_sentinel_at (before after : list jsstring) (s : jsstring) :
  is_sentinel s = true -> has_sentinel before = false ->
  before_sentinel (before ++ s :: after) = before
  /\ has_sentinel (before ++ s :: after) = true.
Proof.
  intros Hs Hb. rewrite before_sentinel_app, Hb. simpl. rewrite Hs.
  split; [apply app_nil_r|].
  unfold has_sentinel. rewrite existsb_app. simpl. rewrite Hs.
  apply orb_true_r.
Qed.

End Properties.

Section AfterSentinel.

Import Spec.

Lemma for_body_sentinel (line : jsstring) :
  JSString.startsWith line DATA_MARKER = true ->
  payload line = DONE_SENTINEL ->
  for_body line = Stop.
Proof.
  intros Hm Hp. apply for_body_stop. unfold is_sentinel.
  rewrite Hm. simpl. now apply eqb_eq.
Qed.

Lemma reachable_completed (st st' : GenState) :
  at_ st = Completed -> reachable st st' -> st' = st.
Proof.
  intros Hat R. induction R as [|st1 l st2 R IH Hs]; [reflexivity|].
  subst st1. rewrite (step_completed st Hat) in Hs. congruence.
Qed.

Lemma received_app (chunks more : list (list Z)) :
  exists text, received (chunks ++ more) = received chunks ++ text.
Proof.
  unfold received, decoded. rewrite concat_app, decode_app. simpl. eauto.
Qed.

(** Once the sentinel is among the lines received, nothing that
    follows it changes the sequence. *)
Lemma OutputSequence_final (chunks more : list (list Z)) (c c' : closing) :
  has_sentinel (records (received chunks)) = true ->
  OutputSequence (chunks ++ more) c' = OutputSequence chunks c.
Proof.
  intros H. unfold OutputSequence.
  destruct (received_app chunks more) as (text & ->).
  rewrite records_app, before_sentinel_app, H.
  unfold has_sentinel at 1. rewrite existsb_app.
  fold (has_sentinel (records (received chunks))). now rewrite H.
Qed.

End AfterSentinel.

(** C2.  When the line the [for] loop comes to starts with the marker
    and its payload is the sentinel text, the sequence ends there, well:
    the step is a [return]; the lines left in the chunk are not gone
    through, the reader is not read again, and no later step yields.
    For a whole stream: once the sentinel is among the lines received,
    the sequence no longer depends on what the transport does next. *)
Theorem C2_sentinel_is_final
  (st : GenState) (line : jsstring) (rest : list jsstring) :
  at_ st = InFor (line :: rest) ->
  JSString.startsWith line DATA_MARKER = true ->
  payload line = DONE_SENTINEL ->
  step st = (Return, goto st Completed)
  /\ trace st [] Done
  /\ (forall st', reachable st st' ->
        (st' = st \/ st' = goto st Completed)
        /\ reader st' = reader st
        /\ forall v st'', step st' <> (Yield v, st''))
  /\ (forall chunks more c c' ys o,
        Spec.has_sentinel (Spec.records (Spec.received chunks)) = true ->
        trace (streamChunks {| pending := chunks ++ more; close := c' |}) ys o
        <-> trace (streamChunks {| pending := chunks; close := c |}) ys o).
Proof.
  intros Hat Hm Hp.
  assert (Hs : step st = (Return, goto st Completed)).
  { rewrite (step_for_cons st Hat). now rewrite (for_body_sentinel _ Hm Hp). }
  split; [exact Hs|]. split; [now apply trace_return with (st' := goto st Completed)|].
  split.
  - intros st' R.
    assert (Hst : st' = st \/ st' = goto st Completed).
    { induction R as [|st1 l st2 R IH Hs1]; [now left|right].
      destruct IH as [->| ->].
      - congruence.
      - rewrite (step_completed (goto st Completed) eq_refl) in Hs1.
        congruence. }
    destruct Hst as [->| ->].
    + split; [now left|]. split; [reflexivity|]. intros v st''.
      rewrite Hs. discriminate.
    + split; [now right|]. split; [reflexivity|]. intros v st''.
      rewrite (step_completed (goto st Completed) eq_refl). discriminate.
  - intros chunks more c c' ys o H.
    rewrite !trace_streamChunks. now rewrite (@OutputSequence_final chunks more c c' H).
Qed.

Lemma C2_witness :
  step Sample.at_sentinel = (Return, goto Sample.at_sentinel Completed)
  /\ trace Sample.at_sentinel [] Done.
Proof.
  destruct (@C2_sentinel_is_final Sample.at_sentinel
              (bytes_of Sample.sentinel) [bytes_of Sample.late]
              eq_refl eq_refl eq_refl) as (H1 & H2 & _).
  exact (conj H1 H2).
Defined.

Section OneLine.

Lemma strict_eq_string_true (v : JSValue) (s : jsstring) :
  JS.strict_eq_string v s = true <-> v = JStr s.
Proof.
  destruct v; simpl; try (split; [discriminate|congruence]).
  rewrite eqb_eq. split; congruence.
Qed.

Lemma get_object (props : list (jsstring * JSValue)) (key : jsstring) :
  JS.get (JObj props) key
  = ret (match JS.lookup props key with Some w => w | None => JUndefined end).
Proof. unfold JS.get. now destruct (JS.lookup props key). Qed.

(** The [try] block on a payload that parses as an object. *)
Lemma try_block_object (data : jsstring) (props : list (jsstring * JSValue)) :
  JSON.parse data = inr (JObj props) ->
  try_block data =
    ret (match JS.lookup props KEY_type, JS.lookup props KEY_delta with
         | Some type, Some delta =>
             if JS.strict_eq_string type OUTPUT_TEXT_DELTA && JS.truthy delta
             then Some delta else None
         | _, _ => None
         end).
Proof.
  intros Hp. unfold try_block. rewrite Hp. simpl bind.
  destruct (JS.lookup props KEY_type) as [type|];
    destruct (JS.lookup props KEY_delta) as [delta|]; simpl;
    try reflexivity.
  - destruct (JS.strict_eq_string type OUTPUT_TEXT_DELTA); [|reflexivity].
    simpl. now destruct (JS.truthy delta).
  - now destruct (JS.strict_eq_string type OUTPUT_TEXT_DELTA).
Qed.

Lemma parse_sentinel : JSON.parse DONE_SENTINEL = inl SyntaxError.
Proof. reflexivity. Qed.

(** The loop body on a line whose payload is not the sentinel. *)
Lemma for_body_data (line : jsstring) :
  JSString.startsWith line DATA_MARKER = true ->
  payload line <> DONE_SENTINEL ->
  for_body line = match try_block (payload line) with
                  | inr (Some v) => Emit v
                  | _ => Skip
                  end.
Proof.
  intros Hm Hp. unfold for_body. rewrite Hm.
  destruct (JSString.eqb (payload line) DONE_SENTINEL) eqn:E.
  - now apply eqb_eq in E.
  - now destruct (try_block (payload line)) as [e|[v|]].
Qed.

Lemma parsed_not_sentinel (data : jsstring) (v : JSValue) :
  JSON.parse data = inr v -> data <> DONE_SENTINEL.
Proof. intros H ->. now rewrite parse_sentinel in H. Qed.

(** The [try] block has a value to yield exactly on an object of type
    [response.output_text.delta] with a truthy [delta], and the value is
    that [delta]. *)
Lemma try_block_emit (data : jsstring) (v : JSValue) :
  try_block data = inr (Some v)
  <-> exists props,
        JSON.parse data = inr (JObj props)
        /\ JS.lookup props KEY_type = Some (JStr OUTPUT_TEXT_DELTA)
        /\ JS.lookup props KEY_delta = Some v
        /\ JS.truthy v = true.
Proof.
  split.
  - intros H. destruct (JSON.parse data) as [e|parsed] eqn:Hp.
    { unfold try_block in H. now rewrite Hp in H. }
    destruct parsed as [| |b|m e|s|elements|props];
      try (unfold try_block in H; rewrite Hp in H; discriminate).
    exists props. split; [reflexivity|].
    rewrite (@try_block_object _ _ Hp) in H. unfold ret in H.
    destruct (JS.lookup props KEY_type) as [type|]; [|discriminate].
    destruct (JS.lookup props KEY_delta) as [delta|]; [|discriminate].
    destruct (JS.strict_eq_string type OUTPUT_TEXT_DELTA) eqn:E1;
      [|discriminate].
    destruct (JS.truthy delta) eqn:E2; [|discriminate].
    simpl in H. injection H as <-.
    apply strict_eq_string_true in E1. subst type. now repeat split.
  - intros (props & Hp & Ht & Hd & Hv).
    rewrite (@try_block_object _ _ Hp), Ht, Hd, Hv.
    assert (E : JS.strict_eq_string (JStr OUTPUT_TEXT_DELTA) OUTPUT_TEXT_DELTA
                = true) by now apply strict_eq_string_true.
    now rewrite E.
Qed.

(** The lines that yield, and what they yield. *)
Lemma for_body_emit (line : jsstring) (v : JSValue) :
  for_body line = Emit v
  <-> JSString.startsWith line DATA_MARKER = true
      /\ exists props,
           JSON.parse (payload line) = inr (JObj props)
           /\ JS.lookup props KEY_type = Some (JStr OUTPUT_TEXT_DELTA)
           /\ JS.lookup props KEY_delta = Some v
           /\ JS.truthy v = true.
Proof.
  rewrite <- try_block_emit. unfold for_body.
  destruct (JSString.startsWith line DATA_MARKER);
    [|split; [discriminate|intros [? _]; discriminate]].
  destruct (JSString.eqb (payload line) DONE_SENTINEL) eqn:E.
  - apply eqb_eq in E. rewrite E. split; [discriminate|].
    intros [_ H]. discriminate.
  - destruct (try_block (payload line)) as [e|[w|]]; split;
      try discriminate; try (intros [_ H]; discriminate).
    + intros [= ->]. now split.
    + intros [_ [= ->]]. reflexivity.
Qed.

End OneLine.

Section Deltas.

Import Spec.

(** What the loop body yields for a line is the truthy [delta] of its
    output text delta Event. *)
Lemma delta_event (line : jsstring) : delta line = event_delta line.
Proof.
  unfold delta, event_delta.
  destruct (JSString.startsWith line DATA_MARKER) eqn:Hm;
    [|unfold for_body; now rewrite Hm].
  destruct (JSString.eqb (payload line) DONE_SENTINEL) eqn:E.
  - unfold for_body. rewrite Hm, E. apply eqb_eq in E.
    now rewrite E, parse_sentinel.
  - assert (Hp : payload line <> DONE_SENTINEL).
    { intros H. apply eqb_eq in H. congruence. }
    rewrite (for_body_data line Hm Hp).
    destruct (JSON.parse (payload line)) as [e|v] eqn:Hv.
    { unfold try_block. now rewrite Hv. }
    destruct v as [| |b|m e|s|elements|props];
      try (unfold try_block; rewrite Hv; reflexivity).
    rewrite (@try_block_object _ _ Hv). unfold ret.
    destruct (JS.lookup props KEY_type) as [type|]; [|reflexivity].
    destruct (JS.lookup props KEY_delta) as [d|];
      [|now destruct type].
    destruct type as [| |b|m e|s|elements|props']; try reflexivity.
    simpl JS.strict_eq_string.
    now destruct (JSString.eqb s OUTPUT_TEXT_DELTA && JS.truthy d).
Qed.

Lemma deltas_events (lines : list jsstring) :
  deltas lines = flat_map event_delta lines.
Proof.
  unfold deltas. apply flat_map_ext. intros line. apply delta_event.
Qed.

(** When the [delta] is a text, it is the Delta text. *)
Lemma event_delta_text (line : jsstring) :
  Forall is_text (event_delta line) -> event_delta line = delta_text line.
Proof.
  unfold event_delta, delta_text.
  destruct (JSString.startsWith line DATA_MARKER); [|reflexivity].
  destruct (JSON.parse (payload line)) as [e|v]; [reflexivity|].
  destruct v as [| |b|m e|s|elements|props]; try reflexivity.
  destruct (JS.lookup props KEY_type) as [type|]; [|reflexivity].
  destruct (JS.lookup props KEY_delta) as [d|]; [|now destruct type].
  destruct type as [| |b|m e|t|elements|props']; try reflexivity.
  destruct (JSString.eqb t OUTPUT_TEXT_DELTA); simpl andb;
    [|now destruct d].
  destruct d as [| |b|m e|s|elements|props']; try reflexivity;
    simpl JS.truthy; try (intros H; inversion H as [|? ? [s' Hs] _];
                          discriminate).
  - destruct b; [|reflexivity].
    intros H. inversion H as [|? ? [s' Hs] _]. discriminate.
  - destruct (negb (JS.rounds_to_zero m e)); [|reflexivity].
    intros H. inversion H as [|? ? [s' Hs] _]. discriminate.
Qed.

Lemma event_deltas_texts (lines : list jsstring) :
  Forall (fun line => Forall is_text (event_delta line)) lines ->
  flat_map event_delta lines = flat_map delta_text lines.
Proof.
  induction 1 as [|line lines H _ IH]; [reflexivity|].
  simpl. now rewrite IH, (event_delta_text line H).
Qed.

End Deltas.

(** C1, as the claim states it, fails: on the stream of an output text
    delta Event whose [delta] is the number 5, then the sentinel, no
    line before the sentinel has a Delta text, and the generator yields
    one element, the number. *)
Lemma C1_counterexample :
  Spec.records (Spec.decoded (concat Sample.chunks_number))
  = [bytes_of Sample.number_delta] ++ bytes_of Sample.sentinel :: []
  /\ Spec.is_sentinel (bytes_of Sample.sentinel) = true
  /\ flat_map Spec.delta_text [bytes_of Sample.number_delta] = []
  /\ trace (streamChunks {| pending := Sample.chunks_number;
                            close := EndOfStream |})
       [JNum 5 0] Done
  /\ ~ trace (streamChunks {| pending := Sample.chunks_number;
                              close := EndOfStream |})
         (flat_map Spec.delta_text [bytes_of Sample.number_delta]) Done.
Proof.
  assert (T : trace (streamChunks {| pending := Sample.chunks_number;
                                     close := EndOfStream |})
                [JNum 5 0] Done).
  { apply trace_iff_run. reflexivity. }
  repeat split; try reflexivity; [exact T|].
  intros T'. destruct (trace_deterministic T T') as [E _]. discriminate.
Qed.

(** C1, amended.  For a byte stream whose candidate lines reach a
    [data: [DONE]] line, the generator yields exactly, in order, the
    truthy [delta] of each output text delta Event on the lines before
    that line, and then ends with no error, however the bytes are cut
    into chunks: one byte at a time and all at once are two such ways.
    When each of these [delta]s is a text, they are exactly the Delta
    texts of the lines before that line. *)
Theorem C1_sentinel_termination_event_deltas
  (bytes : list Z) (before after : list jsstring) (s : jsstring) :
  Spec.records (Spec.decoded bytes) = before ++ s :: after ->
  Spec.is_sentinel s = true ->
  Spec.has_sentinel before = false ->
  (forall chunks ys o,
      concat chunks = bytes ->
      trace (streamChunks {| pending := chunks; close := EndOfStream |}) ys o
      <-> ys = flat_map Spec.event_delta before /\ o = Done)
  /\ trace (streamChunks {| pending := bytewise bytes; close := EndOfStream |})
       (flat_map Spec.event_delta before) Done
  /\ trace (streamChunks {| pending := [bytes]; close := EndOfStream |})
       (flat_map Spec.event_delta before) Done
  /\ (Forall (fun line => Forall Spec.is_text (Spec.event_delta line)) before ->
      flat_map Spec.event_delta before = flat_map Spec.delta_text before).
Proof.
  intros Hrec Hs Hb.
  destruct (@before_sentinel_at before after s Hs Hb) as [E1 E2].
  assert (H : forall chunks ys o,
             concat chunks = bytes ->
             trace (streamChunks {| pending := chunks; close := EndOfStream |})
               ys o
             <-> ys = flat_map Spec.event_delta before /\ o = Done).
  { intros chunks ys o Hc. rewrite trace_streamChunks.
    unfold Spec.OutputSequence, Spec.received.
    rewrite Hc, Hrec, E1, E2, deltas_events.
    split; [intros [= <- <-]; now split|intros [-> ->]; reflexivity]. }
  split; [exact H|]. split; [|split].
  - apply H; [apply concat_bytewise|now split].
  - apply H; [apply concat_single|now split].
  - apply event_deltas_texts.
Qed.

Lemma C1_witness :
  trace (streamChunks {| pending := Sample.chunks_late; close := EndOfStream |})
    [Sample.Hel; Sample.Lo; Sample.Wide] Done
  /\ trace (streamChunks {| pending := bytewise (concat Sample.chunks_late);
                            close := EndOfStream |})
       [Sample.Hel; Sample.Lo; Sample.Wide] Done.
Proof.
  destruct (@C1_sentinel_termination_event_deltas
              (concat Sample.chunks_late)
              [bytes_of Sample.hel; bytes_of Sample.lo;
               Spec.decoded (bytes_of Sample.wide)]
              [bytes_of Sample.late]
              (bytes_of Sample.sentinel)
              eq_refl eq_refl eq_refl) as (H & Hb & _).
  split; [|exact Hb].
  apply (H Sample.chunks_late); [reflexivity|now split].
Defined.


(** C3.  For a candidate line whose payload parses as a JSON object, the
    loop body yields only when the object's [type] is
    [response.output_text.delta] and its [delta] is there and is not the
    empty string, and what it yields is that [delta]; an object with
    another [type] or none, or with no [delta] or an empty one, yields
    nothing; the [try] block throws nothing in any of these cases. *)
Theorem C3_only_deltas_yield
  (line : jsstring) (props : list (jsstring * JSValue)) :
  JSString.startsWith line DATA_MARKER = true ->
  JSON.parse (payload line) = inr (JObj props) ->
  (forall v, for_body line = Emit v ->
             JS.lookup props KEY_type = Some (JStr OUTPUT_TEXT_DELTA)
             /\ JS.lookup props KEY_delta = Some v
             /\ v <> JStr [])
  /\ (JS.lookup props KEY_type <> Some (JStr OUTPUT_TEXT_DELTA) ->
      for_body line = Skip)
  /\ (JS.lookup props KEY_delta = None
      \/ JS.lookup props KEY_delta = Some (JStr []) ->
      for_body line = Skip)
  /\ (exists r, try_block (payload line) = inr r).
Proof.
  intros Hm Hp.
  rewrite (@for_body_data line Hm (@parsed_not_sentinel _ _ Hp)).
  rewrite (@try_block_object _ _ Hp). unfold ret.
  split; [|split; [|split]].
  - intros v H.
    destruct (JS.lookup props KEY_type) as [type|]; [|discriminate].
    destruct (JS.lookup props KEY_delta) as [delta|]; [|discriminate].
    destruct (JS.strict_eq_string type OUTPUT_TEXT_DELTA) eqn:E1;
      [|discriminate].
    destruct (JS.truthy delta) eqn:E2; [|discriminate].
    simpl in H. injection H as <-.
    apply strict_eq_string_true in E1. subst type.
    repeat split. intros ->. discriminate.
  - intros Hn.
    destruct (JS.lookup props KEY_type) as [type|]; [|reflexivity].
    destruct (JS.lookup props KEY_delta) as [delta|]; [|reflexivity].
    destruct (JS.strict_eq_string type OUTPUT_TEXT_DELTA) eqn:E1;
      [|reflexivity].
    apply strict_eq_string_true in E1. congruence.
  - intros [H|H]; rewrite H.
    + now destruct (JS.lookup props KEY_type).
    + destruct (JS.lookup props KEY_type) as [type|]; [|reflexivity].
      simpl. now rewrite andb_false_r.
  - eexists. reflexivity.
Qed.

Lemma C3_witness :
  for_body (bytes_of Sample.lifecycle) = Skip.
Proof.
  destruct (@C3_only_deltas_yield (bytes_of Sample.lifecycle)
              [(KEY_type, JStr (JSString.lit "response.completed"))]
              eq_refl eq_refl) as (_ & H & _).
  apply H. discriminate.
Defined.

(** C4, as the claim states it, fails: an event of type
    [response.output_text.delta] whose [delta] is the number 5 is not
    passed over; the loop body yields the number. *)
Lemma C4_counterexample :
  JSString.startsWith (bytes_of Sample.number_delta) DATA_MARKER = true
  /\ JSON.parse (payload (bytes_of Sample.number_delta))
     = inr (JObj [(KEY_type, JStr OUTPUT_TEXT_DELTA); (KEY_delta, JNum 5 0)])
  /\ for_body (bytes_of Sample.number_delta) = Emit (JNum 5 0)
  /\ for_body (bytes_of Sample.number_delta) <> Skip.
Proof. repeat split. discriminate. Qed.

(** C4, amended.  For an event of type [response.output_text.delta]
    whose [delta] is there and is not a string, the loop body goes by
    the truth value of [delta] alone: a truthy one (a number that is not
    zero, [true], an array, an object) is yielded as it is, a falsy one
    (zero, [false], [null]) yields nothing; nothing is thrown. *)
Theorem C4_non_string_delta_by_truthiness
  (line : jsstring) (props : list (jsstring * JSValue)) (delta : JSValue) :
  JSString.startsWith line DATA_MARKER = true ->
  JSON.parse (payload line) = inr (JObj props) ->
  JS.lookup props KEY_type = Some (JStr OUTPUT_TEXT_DELTA) ->
  JS.lookup props KEY_delta = Some delta ->
  (forall s, delta <> JStr s) ->
  for_body line = (if JS.truthy delta then Emit delta else Skip)
  /\ (exists r, try_block (payload line) = inr r).
Proof.
  intros Hm Hp Ht Hd _.
  rewrite (@for_body_data line Hm (@parsed_not_sentinel _ _ Hp)).
  rewrite (@try_block_object _ _ Hp), Ht, Hd. unfold ret.
  assert (E : JS.strict_eq_string (JStr OUTPUT_TEXT_DELTA) OUTPUT_TEXT_DELTA
              = true) by now apply strict_eq_string_true.
  rewrite E. simpl andb. split; [|eexists; reflexivity].
  now destruct (JS.truthy delta).
Qed.

Lemma C4_witness :
  for_body (bytes_of Sample.number_delta) = Emit (JNum 5 0).
Proof.
  refine (proj1 (@C4_non_string_delta_by_truthiness
                   (bytes_of Sample.number_delta)
                   [(KEY_type, JStr OUTPUT_TEXT_DELTA); (KEY_delta, JNum 5 0)]
                   (JNum 5 0) eq_refl eq_refl eq_refl eq_refl _)).
  intros s. discriminate.
Defined.

(** C5.  A line that starts with the marker, whose payload is not the
    sentinel and does not parse as JSON, is passed over: the loop body
    yields nothing and throws nothing, the step is silent and leads to
    the next line, and the sequence is the one the generator would yield
    had the line not been there. *)
Theorem C5_malformed_payload_is_skipped (line : jsstring) (e : exn) :
  JSString.startsWith line DATA_MARKER = true ->
  payload line <> DONE_SENTINEL ->
  JSON.parse (payload line) = inl e ->
  for_body line = Skip
  /\ (forall st rest,
         at_ st = InFor (line :: rest) ->
         step st = (Tau, goto st (InFor rest))
         /\ forall ys o, trace st ys o <-> trace (goto st (InFor rest)) ys o)
  /\ (forall l1 l2, run_for (l1 ++ line :: l2) = run_for (l1 ++ l2)).
Proof.
  intros Hm Hp He.
  assert (Hb : for_body line = Skip).
  { rewrite (for_body_data line Hm Hp). unfold try_block. now rewrite He. }
  split; [exact Hb|]. split.
  - intros st rest Hat.
    assert (Hs : step st = (Tau, goto st (InFor rest))).
    { rewrite (step_for_cons st Hat). now rewrite Hb. }
    split; [exact Hs|]. intros ys o. split.
    + intros T. inversion T; subst; try congruence.
    + intros T. eapply trace_tau; [exact Hs|exact T].
  - intros l1 l2. rewrite !run_for_app. simpl run_for. now rewrite Hb.
Qed.

Lemma C5_witness :
  step Sample.at_malformed
  = (Tau, goto Sample.at_malformed (InFor [bytes_of Sample.hel]))
  /\ trace Sample.at_malformed [Sample.Hel; Sample.Lo] Done.
Proof.
  destruct (@C5_malformed_payload_is_skipped
              (bytes_of Sample.malformed) SyntaxError
              eq_refl ltac:(discriminate) eq_refl) as (_ & H & _).
  destruct (H Sample.at_malformed [bytes_of Sample.hel] eq_refl) as [Hs Ht].
  split; [exact Hs|]. apply Ht. apply trace_iff_run. reflexivity.
Defined.

Section Buffer.

Import Spec.

Lemma consumed_step (chunks : list (list Z)) (c : closing)
  (st st' : GenState) (l : label) (consumed : list (list Z)) :
  Spec.consumed_so_far chunks c st consumed ->
  step st = (l, st') ->
  exists consumed', Spec.consumed_so_far chunks c st' consumed'.
Proof.
  intros (Hc & Hcl & Hd & Hb). unfold step.
  destruct (at_ st) as [|[|line rest]|].
  - destruct (done st).
    { intros [= <- <-]. exists consumed. now repeat split. }
    unfold read. destruct (pending (reader st)) as [|bytes more] eqn:Hp.
    + destruct (close (reader st)) eqn:Hcr; intros [= <- <-];
        exists consumed; repeat split; simpl; rewrite ?Hp; auto;
        congruence.
    + simpl.
      destruct (TextDecoder.decode (decoder st) bytes) as [td text] eqn:E.
      rewrite pop_split. intros [= <- <-].
      exists (consumed ++ [bytes]). unfold Spec.consumed_so_far. simpl.
      assert (Ed : TextDecoder.decode TextDecoder.init
                     (concat (consumed ++ [bytes]))
                   = (td, received consumed ++ text)).
      { rewrite concat_app, concat_single, decode_app, <- Hd, E.
        reflexivity. }
      repeat split.
      * now rewrite <- app_assoc.
      * exact Hcl.
      * now rewrite Ed.
      * assert (Er : received (consumed ++ [bytes])
                     = received consumed ++ text).
        { unfold received, decoded. now rewrite Ed. }
        now rewrite Er, (remainder_app (received consumed) text), <- Hb.
  - intros [= <- <-]. exists consumed. now repeat split.
  - destruct (for_body line); intros [= <- <-]; exists consumed;
      now repeat split.
  - intros [= <- <-]. exists consumed. now repeat split.
Qed.

Lemma consumed_reachable (chunks : list (list Z)) (c : closing)
  (st : GenState) :
  reachable (streamChunks {| pending := chunks; close := c |}) st ->
  exists consumed, Spec.consumed_so_far chunks c st consumed.
Proof.
  induction 1 as [|st l st' R (consumed & IH) Hs].
  - exists []. now repeat split.
  - exact (consumed_step IH Hs).
Qed.

End Buffer.

(** C6.  In every state the generator passes through, the buffer is the
    longest suffix, with no line terminator in it, of the text decoded
    from the chunks consumed so far. *)
Theorem C6_buffer_is_longest_open_suffix
  (chunks : list (list Z)) (c : closing) (st : GenState) :
  reachable (streamChunks {| pending := chunks; close := c |}) st ->
  exists consumed,
    chunks = consumed ++ pending (reader st)
    /\ Spec.longest_open_suffix (buffer st) (Spec.received consumed).
Proof.
  intros R. destruct (consumed_reachable R) as (consumed & Hc & _ & _ & Hb).
  exists consumed. split; [exact Hc|]. rewrite Hb. apply remainder_longest.
Qed.

Lemma C6_witness :
  exists consumed,
    [line_of Sample.sentinel ++ line_of Sample.late; line_of Sample.late]
    = consumed ++ pending (reader Sample.at_sentinel)
    /\ Spec.longest_open_suffix (buffer Sample.at_sentinel)
         (Spec.received consumed).
Proof.
  apply (@C6_buffer_is_longest_open_suffix _ EndOfStream Sample.at_sentinel).
  eapply reachable_step; [apply reachable_start|].
  unfold Sample.at_sentinel. apply surjective_pairing.
Defined.

(** With no sentinel among the candidate lines received, the sequence
    is the Deltas of all of them and ends as the transport does. *)
Lemma trace_without_sentinel (chunks : list (list Z)) (c : closing) :
  Spec.has_sentinel (Spec.records (Spec.received chunks)) = false ->
  forall ys o,
    trace (streamChunks {| pending := chunks; close := c |}) ys o
    <-> ys = Spec.deltas (Spec.records (Spec.received chunks))
        /\ o = Spec.transport_end c.
Proof.
  intros H ys o. rewrite trace_streamChunks. unfold Spec.OutputSequence.
  rewrite H, (before_sentinel_all _ H).
  split; [intros [= <- <-]; now split|intros [-> ->]; reflexivity].
Qed.

(** C7.  When the transport ends the stream and no sentinel is among the
    candidate lines received, the generator yields the Deltas of all
    those lines, in order, and ends with no error.  (The candidate lines
    are the ones a line terminator ends: see C10 for what follows the
    last terminator.) *)
Theorem C7_end_of_stream_without_sentinel (chunks : list (list Z)) :
  Spec.has_sentinel (Spec.records (Spec.received chunks)) = false ->
  forall ys o,
    trace (streamChunks {| pending := chunks; close := EndOfStream |}) ys o
    <-> ys = Spec.deltas (Spec.records (Spec.received chunks)) /\ o = Done.
Proof.
  intros H ys o. exact (@trace_without_sentinel chunks EndOfStream H ys o).
Qed.

Lemma C7_witness :
  trace (streamChunks {| pending := Sample.chunks_open; close := EndOfStream |})
    [Sample.Hel; Sample.Lo] Done.
Proof.
  apply (@C7_end_of_stream_without_sentinel Sample.chunks_open eq_refl).
  now split.
Defined.

(** C8.  When a read fails after the chunks received, and no sentinel is
    among their candidate lines (so that the failing read is reached),
    the generator yields the Deltas of those lines, the same elements
    as had the stream ended there, and then fails with the error of the
    read; and the step that throws is the one that reads. *)
Theorem C8_read_failure_after_deltas (chunks : list (list Z)) (e : exn) :
  Spec.has_sentinel (Spec.records (Spec.received chunks)) = false ->
  (forall ys o,
      trace (streamChunks {| pending := chunks; close := ReadFailure e |}) ys o
      <-> ys = Spec.deltas (Spec.records (Spec.received chunks))
          /\ o = Failed e)
  /\ trace (streamChunks {| pending := chunks; close := EndOfStream |})
       (Spec.deltas (Spec.records (Spec.received chunks))) Done
  /\ (forall st,
         at_ st = AtWhile -> done st = false ->
         reader st = {| pending := []; close := ReadFailure e |} ->
         step st = (Throw e, goto st Completed)).
Proof.
  intros H. split; [|split].
  - intros ys o. exact (@trace_without_sentinel chunks (ReadFailure e) H ys o).
  - now apply (@trace_without_sentinel chunks EndOfStream H).
  - intros st Hat Hd Hr. unfold step, read, goto.
    now rewrite Hat, Hd, Hr.
Qed.

Lemma C8_witness :
  trace (streamChunks {| pending := Sample.chunks_open;
                         close := ReadFailure (TransportError 104) |})
    [Sample.Hel; Sample.Lo] (Failed (TransportError 104)).
Proof.
  apply (@C8_read_failure_after_deltas Sample.chunks_open
           (TransportError 104) eq_refl).
  now split.
Defined.

Section Key.






Lemma compose_input_whoop (JSON_stringify : JSValue -> jsstring)
  (call : Call.t) :
  compose_input
    (fun _ => if JS.truthy (Call.whoopData call)
              then JSON_stringify (Call.whoopData call) else [])
    call
  = compose_input JSON_stringify call.
Proof.
  unfold compose_input. now destruct (JS.truthy (Call.whoopData call)).
Qed.

(** When the platform calls return, the call is the one above. *)
Lemma initiator_agrees (JSON_stringify : JSValue -> jsstring)
  (ENV COMMIT : JSValue) (fetch : Posted -> throws Response)
  (call : Call.t) :
  Initiator.streamOpenAIChat (fun v => ret (JSON_stringify v)) ENV COMMIT
    (fun request => match fetch request with
                    | inl e => inl e
                    | inr response => inr (of_response response)
                    end)
    call
  = streamOpenAIChat_call JSON_stringify ENV COMMIT fetch call.
Proof.
  unfold Initiator.streamOpenAIChat, streamOpenAIChat_call, streamOpenAIChat.
  destruct (JS.truthy (resolve_key (Call.user call) ENV));
    simpl negb; cbv iota; [|reflexivity].
  assert (Ew : Initiator.stringify_whoopData
                 (fun v => ret (JSON_stringify v)) call
               = inr (if JS.truthy (Call.whoopData call)
                      then JSON_stringify (Call.whoopData call) else [])).
  { unfold Initiator.stringify_whoopData.
    now destruct (JS.truthy (Call.whoopData call)). }
  rewrite Ew. unfold ret, request_object.
  rewrite compose_input_whoop. cbv zeta. unfold post, request_object.
  destruct (fetch _) as [e|response]; [reflexivity|].
  unfold of_response. simpl.
  destruct (ok response); simpl; [|reflexivity].
  now destruct (body response).
Qed.

End Key.



(** The call of a user with a key of their own, when the process has a
    key too: one request, with the user's key. *)
Example caller_key_on_the_wire :
  map (fun request => bearer (head request))
    (fst (Initiator.streamOpenAIChat Sample.stringify_any
            (JStr (JSString.lit "sk-env")) JUndefined
            Sample.fetch_ok Sample.call_with_key))
  = [JStr (JSString.lit "sk-user")].
Proof. reflexivity. Qed.

Section Trailing.

Import Spec.

Lemma no_LF_byte (bytes : list Z) :
  forallb (fun b => negb (b =? 10)) bytes = true -> ~ In 10 bytes.
Proof.
  intros H Hin. rewrite forallb_forall in H. specialize (H 10 Hin).
  discriminate.
Qed.

(** Bytes with no [0x0A] after a stream add to the open piece only. *)
Lemma received_open_tail (chunks chunks' : list (list Z)) (tail : list Z) :
  concat chunks = concat chunks' ++ tail -> ~ In 10 tail ->
  exists text,
    received chunks = received chunks' ++ text
    /\ ~ In JSString.LF text.
Proof.
  intros Hc Ht. unfold received, decoded. rewrite Hc, decode_app.
  eexists. split; [reflexivity|].
  apply decode_open; [|exact Ht].
  apply decode_ok, utf8_init_ok.
Qed.

Lemma remainder_open_tail (a text : jsstring) :
  ~ In JSString.LF text -> remainder (a ++ text) = remainder a ++ text.
Proof.
  intros H. rewrite remainder_app. unfold remainder at 1.
  rewrite split_open; [reflexivity|].
  intros Hin. apply in_app_or in Hin as [Hin|Hin]; [|tauto].
  exact (remainder_open a Hin).
Qed.

End Trailing.

(** C10.  Bytes that follow the last line terminator of a stream, such
    as a whole [data: ] record with no terminator after it, are not
    among the candidate lines: at the end of the stream the sequence is
    the one of the stream without them, and their text has only been
    added to the buffer. *)
Theorem C10_unterminated_tail_is_dropped
  (chunks chunks' : list (list Z)) (tail : list Z) :
  concat chunks = concat chunks' ++ tail ->
  ~ In 10 tail ->
  (forall ys o,
      trace (streamChunks {| pending := chunks; close := EndOfStream |}) ys o
      <-> trace (streamChunks {| pending := chunks'; close := EndOfStream |})
            ys o)
  /\ Spec.records (Spec.received chunks) = Spec.records (Spec.received chunks')
  /\ exists text,
       Spec.received chunks = Spec.received chunks' ++ text
       /\ Spec.remainder (Spec.received chunks)
          = Spec.remainder (Spec.received chunks') ++ text.
Proof.
  intros Hc Ht.
  destruct (@received_open_tail chunks chunks' tail Hc Ht) as (text & E & Hopen).
  assert (Hr : Spec.records (Spec.received chunks)
               = Spec.records (Spec.received chunks')).
  { rewrite E. now apply records_open. }
  split; [|split; [exact Hr|]].
  - intros ys o. rewrite !trace_streamChunks. unfold Spec.OutputSequence.
    now rewrite Hr.
  - exists text. split; [exact E|]. rewrite E.
    now apply remainder_open_tail.
Qed.

Lemma C10_witness :
  trace (streamChunks {| pending := Sample.chunks_cut; close := EndOfStream |})
    [Sample.Hel; Sample.Lo] Done.
Proof.
  destruct (@C10_unterminated_tail_is_dropped
              Sample.chunks_cut Sample.chunks_open (bytes_of Sample.late)
              eq_refl (@no_LF_byte (bytes_of Sample.late) eq_refl))
    as (H & _).
  apply H. apply trace_iff_run. reflexivity.
Defined.

(* ================================================================== *)
(** ** More on the sequence of a stream *)
(* ================================================================== *)

Section Sequence.

Import Spec.

Lemma OutputSequence_run_for (chunks : list (list Z)) (c : closing) :
  OutputSequence chunks c
  = (fst (run_for (records (received chunks))),
     if snd (run_for (records (received chunks)))
     then Done else transport_end c).
Proof. unfold OutputSequence. now rewrite run_for_spec. Qed.

Lemma for_body_unmarked (line : jsstring) :
  marked line = false -> for_body line = Skip.
Proof. unfold marked, for_body. now intros ->. Qed.

Lemma run_for_marked (lines : list jsstring) :
  run_for (filter marked lines) = run_for lines.
Proof.
  induction lines as [|line rest IH]; [reflexivity|]. simpl.
  destruct (marked line) eqn:E.
  - simpl. rewrite IH. reflexivity.
  - now rewrite (for_body_unmarked line E).
Qed.

Lemma in_before_sentinel (lines : list jsstring) (line : jsstring) :
  In line (before_sentinel lines) -> In line lines.
Proof.
  induction lines as [|l lines IH]; [intros []|]. simpl.
  destruct (is_sentinel l); [intros []|].
  intros [->|H]; [now left|right; now apply IH].
Qed.

Lemma in_deltas (lines : list jsstring) (v : JSValue) :
  In v (deltas lines) -> exists line, In line lines /\ for_body line = Emit v.
Proof.
  unfold deltas. intros H. apply in_flat_map in H as (line & Hl & Hv).
  exists line. split; [exact Hl|]. unfold delta in Hv.
  destruct (for_body line); try contradiction.
  destruct Hv as [->|[]]. reflexivity.
Qed.

Lemma length_deltas (lines : list jsstring) :
  (List.length (deltas lines) <= List.length lines)%nat.
Proof.
  induction lines as [|l lines IH]; [apply Nat.le_refl|].
  unfold deltas in *. simpl. rewrite length_app. unfold delta at 1.
  destruct (for_body l); simpl; lia.
Qed.

Lemma length_before_sentinel (lines : list jsstring) :
  (List.length (before_sentinel lines) <= List.length lines)%nat.
Proof.
  induction lines as [|l lines IH]; [apply Nat.le_refl|]. simpl.
  destruct (is_sentinel l); simpl; lia.
Qed.

(** As many candidate lines as line terminators. *)
Lemma length_records (text : jsstring) :
  List.length (records text) = count_occ Z.eq_dec text JSString.LF.
Proof.
  induction text as [|c text IH]; [reflexivity|].
  destruct (Z.eq_dec c JSString.LF) as [->|Hc].
  - rewrite records_cons_LF. simpl. rewrite IH.
    now destruct (Z.eq_dec JSString.LF JSString.LF).
  - rewrite count_occ_cons_neq by exact Hc. rewrite <- IH.
    destruct (split_cons_other text Hc) as (l & ls & E1 & E2).
    unfold records. rewrite E1, E2. now destruct ls.
Qed.

End Sequence.

Section CountBytes.

Import TextDecoder.

Lemma handler_LF (d : utf8) :
  utf8_ok d -> snd (process d 10) = [10] \/ snd (process d 10) = [REPLACEMENT; 10].
Proof.
  intros (_ & Hlo & _ & _). unfold process, handler.
  destruct (bytes_needed d =? 0); [now left|].
  assert (E : in_range (lower_boundary d) (upper_boundary d) 10 = false).
  { unfold in_range. apply andb_false_iff. left. apply Z.leb_gt. lia. }
  rewrite E. now right.
Qed.

Lemma count_process (d : utf8) (b : Z) :
  utf8_ok d ->
  count_occ Z.eq_dec (snd (process d b)) 10
  = count_occ Z.eq_dec [b] 10.
Proof.
  intros Hd. destruct (Z.eq_dec b 10) as [->|Hb].
  - destruct (handler_LF Hd) as [-> | ->]; reflexivity.
  - rewrite (proj1 (count_occ_not_In Z.eq_dec [b] 10)) by (simpl; tauto).
    apply count_occ_not_In. intros Hin.
    destruct (proj2 (process_ok b Hd) 10 Hin); [congruence|lia].
Qed.

Lemma count_process_all (bytes : list Z) :
  forall d : utf8,
    utf8_ok d ->
    count_occ Z.eq_dec (snd (process_all d bytes)) 10
    = count_occ Z.eq_dec bytes 10.
Proof.
  induction bytes as [|b bytes IH]; intros d Hd; [reflexivity|].
  pose proof (count_process b Hd) as H1.
  pose proof (proj1 (process_ok b Hd)) as Hd1.
  change (process_all d (b :: bytes))
    with (let (d1, out1) := process d b in
          let (d2, out2) := process_all d1 bytes in (d2, out1 ++ out2)).
  destruct (process d b) as [d1 o1]. simpl in H1, Hd1.
  specialize (IH d1 Hd1). destruct (process_all d1 bytes) as [d2 o2].
  simpl in IH. simpl snd. rewrite count_occ_app, H1, IH.
  change (b :: bytes) with ([b] ++ bytes). now rewrite count_occ_app.
Qed.

Lemma count_code_units (out : list Z) :
  count_occ Z.eq_dec (flat_map code_units out) 10
  = count_occ Z.eq_dec out 10.
Proof.
  induction out as [|cp out IH]; [reflexivity|].
  change (flat_map code_units (cp :: out))
    with (code_units cp ++ flat_map code_units out).
  rewrite count_occ_app, IH.
  change (cp :: out) with ([cp] ++ out). rewrite count_occ_app. f_equal.
  unfold code_units. destruct (Z.ltb_spec cp 65536) as [Hlt|Hge];
    [reflexivity|].
  assert (S : 0 <= Z.shiftr (cp - 65536) 10)
    by (apply Z.shiftr_nonneg; lia).
  assert (L : 0 <= Z.land (cp - 65536) 1023)
    by (apply Z.land_nonneg; lia).
  rewrite (proj1 (count_occ_not_In Z.eq_dec [cp] 10))
    by (cbn [In]; intuition lia).
  apply count_occ_not_In. cbn [In]. intuition lia.
Qed.

Lemma count_serialize (seen : bool) (out : list Z) :
  count_occ Z.eq_dec (snd (serialize seen out)) 10
  = count_occ Z.eq_dec out 10.
Proof.
  destruct out as [|c out]; [reflexivity|]. unfold serialize, snd.
  rewrite count_code_units.
  destruct (negb seen && (c =? 65279)) eqn:E; [|reflexivity].
  apply andb_true_iff in E as [_ E]. apply Z.eqb_eq in E. subst c.
  now rewrite count_occ_cons_neq by discriminate.
Qed.

(** A line terminator in the text for each byte [0x0A], and no other. *)
Lemma count_decoded (bytes : list Z) :
  count_occ Z.eq_dec (Spec.decoded bytes) JSString.LF
  = count_occ Z.eq_dec bytes 10.
Proof.
  unfold Spec.decoded, decode.
  pose proof (count_process_all bytes utf8_init_ok) as H.
  change (decoder init) with utf8_init.
  destruct (process_all utf8_init bytes) as [d out]. simpl in H.
  pose proof (count_serialize (BOM_seen init) out) as S.
  destruct (serialize (BOM_seen init) out) as [seen text]. simpl in *.
  unfold JSString.LF. congruence.
Qed.

End CountBytes.

Section Whitespace.

Import JSString.

Lemma trimStart_spaces (ws s : jsstring) :
  spaces ws -> trimStart (ws ++ s) = trimStart s.
Proof.
  induction 1 as [|c ws Hc _ IH]; [reflexivity|]. simpl. now rewrite Hc.
Qed.

Lemma trimStart_snoc (s : jsstring) (c : Z) :
  is_trim_space c = true ->
  trimStart (s ++ [c])
  = match trimStart s with
    | [] => []
    | _ :: _ => trimStart s ++ [c]
    end.
Proof.
  intros Hc. induction s as [|x s IH]; simpl.
  - now rewrite Hc.
  - destruct (is_trim_space x); [exact IH|reflexivity].
Qed.

Lemma trim_snoc (s : jsstring) (c : Z) :
  is_trim_space c = true -> trim (s ++ [c]) = trim s.
Proof.
  intros Hc. unfold trim. rewrite (@trimStart_snoc s c Hc).
  destruct (trimStart s) as [|x t]; [reflexivity|].
  rewrite rev_app_distr. change (rev [c]) with [c].
  change ([c] ++ rev (x :: t)) with (c :: rev (x :: t)).
  cbn [trimStart]. now rewrite Hc.
Qed.

Lemma trim_app_spaces (ws : jsstring) :
  spaces ws -> forall s, trim (s ++ ws) = trim s.
Proof.
  induction 1 as [|c ws Hc _ IH]; intros s; [now rewrite app_nil_r|].
  change (c :: ws) with ([c] ++ ws). rewrite app_assoc, IH.
  now apply trim_snoc.
Qed.

(** [trim] takes the white space off both ends. *)
Lemma trim_around (ws1 s ws2 : jsstring) :
  spaces ws1 -> spaces ws2 -> trim (ws1 ++ s ++ ws2) = trim s.
Proof.
  intros H1 H2. rewrite app_assoc, (@trim_app_spaces ws2 H2).
  unfold trim. now rewrite (@trimStart_spaces ws1 s H1).
Qed.

Lemma startsWith_app (p s : jsstring) : startsWith (p ++ s) p = true.
Proof.
  induction p as [|y p IH]; [now destruct s|].
  simpl. now rewrite Z.eqb_refl.
Qed.

Lemma skipn_startsWith (p : jsstring) :
  forall s x : jsstring,
    startsWith s p = true ->
    skipn (List.length p) (s ++ x) = skipn (List.length p) s ++ x.
Proof.
  induction p as [|y p IH]; intros s x H; [reflexivity|].
  destruct s as [|c s]; [discriminate|]. simpl in H.
  apply andb_true_iff in H as [_ H]. simpl. now apply IH.
Qed.

Lemma startsWith_extend (p : jsstring) :
  forall s x : jsstring,
    startsWith s p = true -> startsWith (s ++ x) p = true.
Proof.
  induction p as [|y p IH]; intros s x H; [now destruct (s ++ x)|].
  destruct s as [|c s]; [discriminate|]. simpl in *.
  apply andb_true_iff in H as [H1 H2]. rewrite H1. now apply IH.
Qed.

Lemma startsWith_snoc_other (p : jsstring) (c : Z) :
  ~ In c p ->
  forall s : jsstring, startsWith (s ++ [c]) p = startsWith s p.
Proof.
  induction p as [|y p IH]; intros Hc s.
  - now destruct s.
  - destruct s as [|x s]; simpl.
    + destruct (Z.eqb_spec c y) as [->|_]; [|reflexivity].
      exfalso. apply Hc. now left.
    + rewrite IH; [reflexivity|]. intros H. apply Hc. now right.
Qed.

(** On a line that starts with the marker, [replace] takes the marker
    off the front and leaves the rest as it is. *)
Lemma replace_marked (s p : jsstring) :
  startsWith s p = true -> replace s p [] = skipn (List.length p) s.
Proof. intros H. destruct s; simpl in *; now rewrite H. Qed.

Lemma payload_marked (s : jsstring) : payload (DATA_MARKER ++ s) = trim s.
Proof.
  unfold payload. rewrite replace_marked by apply startsWith_app.
  rewrite skipn_app, skipn_all, Nat.sub_diag. reflexivity.
Qed.

Lemma payload_snoc (line : jsstring) (c : Z) :
  marked line = true -> is_trim_space c = true ->
  payload (line ++ [c]) = payload line.
Proof.
  intros Hm Hc. unfold payload.
  rewrite (@replace_marked _ _ (@startsWith_extend DATA_MARKER line [c] Hm)).
  rewrite (@replace_marked _ _ Hm), (@skipn_startsWith DATA_MARKER line [c] Hm).
  now apply trim_snoc.
Qed.

End Whitespace.

(** X1.  The sequence depends on the bytes of the stream and on how the
    transport closes it, not on where the chunks are cut: two streams
    with the same bytes and the same closing give the same elements and
    the same end, with or without a sentinel, empty chunks included. *)
Theorem X1_chunking_is_immaterial
  (chunks chunks' : list (list Z)) (c : closing)
  (ys : list JSValue) (o : outcome) :
  concat chunks = concat chunks' ->
  trace (streamChunks {| pending := chunks; close := c |}) ys o
  <-> trace (streamChunks {| pending := chunks'; close := c |}) ys o.
Proof.
  intros H. rewrite !trace_streamChunks.
  now rewrite (@OutputSequence_concat chunks chunks' c H).
Qed.

Lemma X1_witness :
  trace (streamChunks
           {| pending := [] :: bytewise (concat Sample.chunks_open) ++ [[]];
              close := ReadFailure (TransportError 104) |})
    [Sample.Hel; Sample.Lo] (Failed (TransportError 104)).
Proof.
  apply (@X1_chunking_is_immaterial
           ([] :: bytewise (concat Sample.chunks_open) ++ [[]])
           Sample.chunks_open (ReadFailure (TransportError 104))
           [Sample.Hel; Sample.Lo] (Failed (TransportError 104)) eq_refl).
  apply trace_iff_run. reflexivity.
Defined.

(** X2.  What a stream has yielded stays: the elements of a stream are
    the first elements of any stream that goes on from it, whatever the
    two closings. *)
Theorem X2_elements_are_never_retracted
  (chunks more : list (list Z)) (c c' : closing)
  (ys ys' : list JSValue) (o o' : outcome) :
  trace (streamChunks {| pending := chunks; close := c |}) ys o ->
  trace (streamChunks {| pending := chunks ++ more; close := c' |}) ys' o' ->
  exists rest, ys' = ys ++ rest.
Proof.
  rewrite !trace_streamChunks. unfold Spec.OutputSequence.
  destruct (received_app chunks more) as (text & ->).
  rewrite records_app, before_sentinel_app.
  intros [= <- _] [= <- _].
  destruct (Spec.has_sentinel (Spec.records (Spec.received chunks))) eqn:E.
  - exists []. now rewrite app_nil_r.
  - rewrite (before_sentinel_all _ E). unfold Spec.deltas.
    rewrite flat_map_app. eauto.
Qed.

Lemma X2_witness :
  exists rest,
    [Sample.Hel; Sample.Lo; Sample.Wide] = [Sample.Hel] ++ rest.
Proof.
  apply (@X2_elements_are_never_retracted
           [line_of Sample.hel]
           [line_of Sample.lo ++ line_of Sample.wide ++ line_of Sample.sentinel
            ++ line_of Sample.late]
           (ReadFailure (TransportError 104)) EndOfStream
           [Sample.Hel] [Sample.Hel; Sample.Lo; Sample.Wide]
           (Failed (TransportError 104)) Done).
  - apply trace_iff_run. reflexivity.
  - apply trace_iff_run. reflexivity.
Defined.

(** X3.  Only the lines that start with the marker count: the sequence
    of a stream is the one of its marked candidate lines alone, so that
    blank lines and lines of other fields, wherever they stand, change
    neither the elements nor the end. *)
Theorem X3_only_marked_lines_count
  (chunks : list (list Z)) (c : closing) (ys : list JSValue) (o : outcome) :
  trace (streamChunks {| pending := chunks; close := c |}) ys o
  <-> ys = Spec.deltas
             (Spec.before_sentinel
                (filter marked (Spec.records (Spec.received chunks))))
      /\ o = (if Spec.has_sentinel
                   (filter marked (Spec.records (Spec.received chunks)))
              then Done else Spec.transport_end c).
Proof.
  rewrite trace_streamChunks, OutputSequence_run_for.
  rewrite <- run_for_marked, run_for_spec. simpl.
  split; [intros [= <- <-]; now split|intros [-> ->]; reflexivity].
Qed.

(** X4.  Every element of the sequence is the value the loop body yields
    for one of the candidate lines received, and it is truthy: the
    sequence holds no empty string, no [null], no [undefined]. *)
Theorem X4_elements_are_truthy_deltas
  (chunks : list (list Z)) (c : closing) (ys : list JSValue) (o : outcome) :
  trace (streamChunks {| pending := chunks; close := c |}) ys o ->
  Forall (fun v =>
            JS.truthy v = true
            /\ v <> JStr [] /\ v <> JNull /\ v <> JUndefined
            /\ exists line,
                 In line (Spec.records (Spec.received chunks))
                 /\ for_body line = Emit v) ys.
Proof.
  rewrite trace_streamChunks. unfold Spec.OutputSequence. intros [= <- _].
  apply Forall_forall. intros v Hv.
  apply in_deltas in Hv as (line & Hl & Hb).
  apply in_before_sentinel in Hl.
  pose proof (proj1 (for_body_emit line v) Hb) as (_ & props & _ & _ & _ & Ht).
  split; [exact Ht|]. repeat split; try (intros ->; discriminate).
  exists line. now split.
Qed.

Lemma X4_witness :
  Forall (fun v =>
            JS.truthy v = true
            /\ v <> JStr [] /\ v <> JNull /\ v <> JUndefined
            /\ exists line,
                 In line (Spec.records (Spec.received Sample.chunks))
                 /\ for_body line = Emit v) [Sample.Hel; Sample.Lo].
Proof.
  apply (@X4_elements_are_truthy_deltas Sample.chunks EndOfStream
           [Sample.Hel; Sample.Lo] Done).
  apply trace_iff_run. reflexivity.
Defined.

(** X5.  A sequence has at most as many elements as its stream has bytes
    [0x0A]: each element takes a line of its own, ended by a line
    terminator. *)
Theorem X5_one_element_per_line_at_most
  (chunks : list (list Z)) (c : closing) (ys : list JSValue) (o : outcome) :
  trace (streamChunks {| pending := chunks; close := c |}) ys o ->
  (List.length ys <= count_occ Z.eq_dec (concat chunks) 10%Z)%nat.
Proof.
  rewrite trace_streamChunks. unfold Spec.OutputSequence. intros [= <- _].
  rewrite <- count_decoded. fold (Spec.received chunks).
  rewrite <- length_records.
  eapply Nat.le_trans; [apply length_deltas|apply length_before_sentinel].
Qed.

Lemma X5_witness :
  (List.length [Sample.Hel; Sample.Lo]
   <= count_occ Z.eq_dec (concat Sample.chunks_cut) 10%Z)%nat.
Proof.
  apply (@X5_one_element_per_line_at_most Sample.chunks_cut EndOfStream
           [Sample.Hel; Sample.Lo] Done).
  apply trace_iff_run. reflexivity.
Defined.

(** X6.  A carriage return at the end of a line changes nothing: the
    loop body does with the line and the carriage return what it does
    with the line, so that a stream whose lines end in CR LF is read as
    the one whose lines end in LF. *)
Theorem X6_carriage_return_is_ignored (line : jsstring) :
  for_body (line ++ [CR]) = for_body line.
Proof.
  unfold for_body.
  destruct (JSString.startsWith line DATA_MARKER) eqn:Hm.
  - rewrite (@startsWith_extend DATA_MARKER line [CR] Hm).
    now rewrite (@payload_snoc line CR Hm eq_refl).
  - rewrite startsWith_snoc_other, Hm; [reflexivity|].
    unfold CR, DATA_MARKER. simpl. intuition discriminate.
Qed.

(** X7.  White space between the marker and the payload, and after the
    payload, changes nothing: the loop body does with the padded line
    what it does with the marker and the payload alone. *)
Theorem X7_padding_of_the_payload_is_ignored (ws1 s ws2 : jsstring) :
  spaces ws1 -> spaces ws2 ->
  for_body (DATA_MARKER ++ ws1 ++ s ++ ws2) = for_body (DATA_MARKER ++ s).
Proof.
  intros H1 H2. unfold for_body.
  rewrite !startsWith_app, !payload_marked.
  now rewrite (@trim_around ws1 s ws2 H1 H2).
Qed.

Lemma X7_witness :
  for_body (DATA_MARKER ++ [32; 9] ++ DONE_SENTINEL ++ [32; 13]) = Stop.
Proof.
  rewrite (@X7_padding_of_the_payload_is_ignored [32; 9] DONE_SENTINEL [32; 13]).
  - reflexivity.
  - repeat constructor.
  - repeat constructor.
Defined.

(* ================================================================== *)
(** ** More on the call *)
(* ================================================================== *)

Section Input.

Lemma fold_left_lines (ms : list ChatMessage) :
  forall input : jsstring,
    fold_left (fun input m => input ++ message_line m) ms input
    = input ++ concat (map message_line ms).
Proof.
  induction ms as [|m ms IH]; intros input; simpl.
  - now rewrite app_nil_r.
  - now rewrite IH, app_assoc.
Qed.

(** The input is what comes before the messages, then a line for each
    message. *)
Lemma compose_input_lines (JSON_stringify : JSValue -> jsstring)
  (call : Call.t) (ms : list ChatMessage) :
  compose_input JSON_stringify (Call.with_messages call ms)
  = compose_input JSON_stringify (Call.with_messages call [])
    ++ concat (map message_line ms).
Proof. unfold compose_input. simpl. apply fold_left_lines. Qed.

(** The texts of lines 8 and 10 to 19 have the lengths of the source's
    literals. *)
Lemma prompt_lengths :
  List.length SYSTEM_PROMPT = 1270%nat /\ List.length INSTRUCTIONS = 1931%nat.
Proof. split; reflexivity. Qed.

End Input.

Section Call.

(** A generator comes from an OK response with a body, to the one
    request the call has sent. *)
Lemma streamOpenAIChat_generator
  (ENV_OPENAI_API_KEY user : JSValue) (fetch : Request -> throws Response)
  (sent : list Request) (g : GenState) :
  streamOpenAIChat ENV_OPENAI_API_KEY fetch user = (sent, inr g) ->
  JS.truthy (resolve_key user ENV_OPENAI_API_KEY) = true
  /\ sent = [{| url := OPENAI_API_URL;
                bearer := resolve_key user ENV_OPENAI_API_KEY |}]
  /\ exists response r,
       fetch {| url := OPENAI_API_URL;
                bearer := resolve_key user ENV_OPENAI_API_KEY |}
       = inr response
       /\ ok response = true /\ body response = Some r
       /\ g = streamChunks r.
Proof.
  unfold streamOpenAIChat.
  destruct (JS.truthy (resolve_key user ENV_OPENAI_API_KEY));
    [|discriminate].
  simpl negb. cbv iota.
  destruct (fetch _) as [e|response] eqn:Ef; [discriminate|].
  destruct (ok response) eqn:Hok; [|discriminate]. simpl negb. cbv iota.
  destruct (body response) as [r|] eqn:Hb; [|discriminate].
  intros [= <- <-]. split; [reflexivity|]. split; [reflexivity|].
  exists response, r. now repeat split.
Qed.

End Call.

Section Outcomes.


End Outcomes.



(** X9.  The input of a conversation that goes on starts with the input
    of the conversation so far: more messages add their lines at the
    end, one line for each, in order, and change nothing before. *)
Theorem X9_input_grows_at_the_end
  (JSON_stringify : JSValue -> jsstring) (call : Call.t)
  (ms more : list ChatMessage) :
  compose_input JSON_stringify (Call.with_messages call (ms ++ more))
  = compose_input JSON_stringify (Call.with_messages call ms)
    ++ concat (map message_line more).
Proof.
  rewrite (compose_input_lines JSON_stringify call (ms ++ more)).
  rewrite (compose_input_lines JSON_stringify call ms).
  now rewrite map_app, concat_app, app_assoc.
Qed.

(** Two lines, or one line with a line terminator in its content. *)
Lemma message_line_merge (m1 m2 : ChatMessage) :
  message_line m1 ++ message_line m2
  = message_line {| isAI := isAI m1;
                    content := content m1 ++ [JSString.LF]
                               ++ role m2 ++ content m2 |}.
Proof.
  unfold message_line. cbn [content]. unfold role at 1 3. cbn [isAI].
  now rewrite <- !app_assoc.
Qed.

(** X10.  The input does not tell the messages apart: a message whose
    content holds a line terminator and a role label gives the same
    input as two messages, so that two conversations that differ can
    send the same request. *)
Theorem X10_input_is_ambiguous
  (JSON_stringify : JSValue -> jsstring) (call : Call.t)
  (ms rest : list ChatMessage) (m1 m2 : ChatMessage) :
  compose_input JSON_stringify
    (Call.with_messages call (ms ++ m1 :: m2 :: rest))
  = compose_input JSON_stringify
      (Call.with_messages call
         (ms ++ {| isAI := isAI m1;
                   content := content m1 ++ [JSString.LF]
                              ++ role m2 ++ content m2 |} :: rest)).
Proof.
  rewrite (compose_input_lines JSON_stringify call (ms ++ m1 :: m2 :: rest)).
  rewrite (compose_input_lines JSON_stringify call
             (ms ++ {| isAI := isAI m1;
                       content := content m1 ++ [JSString.LF]
                                  ++ role m2 ++ content m2 |} :: rest)).
  f_equal. rewrite !map_app, !concat_app. f_equal.
  cbn [map concat]. now rewrite app_assoc, message_line_merge.
Qed.

(** X11.  [max_tokens] has no effect: whatever it is, the call sends the
    same request, body included, and ends in the same way. *)
Theorem X11_max_tokens_is_not_used
  (JSON_stringify : JSValue -> jsstring)
  (ENV_OPENAI_API_KEY VITE_COMMIT_ID : JSValue)
  (fetch : Posted -> throws Response) (call : Call.t) (n : JSValue) :
  streamOpenAIChat_call JSON_stringify ENV_OPENAI_API_KEY VITE_COMMIT_ID
    fetch (Call.with_max_tokens call n)
  = streamOpenAIChat_call JSON_stringify ENV_OPENAI_API_KEY VITE_COMMIT_ID
      fetch call.
Proof. reflexivity. Qed.

(** X12.  A payload that parses as a JSON value other than an object
    yields nothing and throws nothing out of the loop body: a number, a
    string, a boolean and an array have no [type]; for [null], reading
    [type] throws a [TypeError], which the [catch] takes. *)
Theorem X12_payload_that_is_no_object
  (line : jsstring) (v : JSValue) :
  marked line = true ->
  JSON.parse (payload line) = inr v ->
  (forall props, v <> JObj props) ->
  for_body line = Skip
  /\ (v = JNull -> try_block (payload line) = inl TypeError).
Proof.
  intros Hm Hp Hv.
  rewrite (@for_body_data line Hm (@parsed_not_sentinel _ _ Hp)).
  unfold try_block. rewrite Hp.
  destruct v as [| |b|m e|s|elements|props]; simpl;
    try (split; [reflexivity|intros; try reflexivity; discriminate]).
  now destruct (Hv props).
Qed.

Lemma X12_witness : for_body (bytes_of "data: null") = Skip.
Proof.
  refine (proj1 (@X12_payload_that_is_no_object (bytes_of "data: null") JNull
                   eq_refl eq_refl _)).
  intros props. discriminate.
Defined.

(** X13.  The call and the generator together: when the call returns a
    generator, it has sent one request, the response was OK, and the
    sequence of the generator is the one of the body of that response,
    the Deltas of its candidate lines before the first sentinel. *)
Theorem X13_sequence_of_the_response
  (ENV_OPENAI_API_KEY user : JSValue) (fetch : Request -> throws Response)
  (sent : list Request) (g : GenState) :
  streamOpenAIChat ENV_OPENAI_API_KEY fetch user = (sent, inr g) ->
  exists response r,
    sent = [{| url := OPENAI_API_URL;
               bearer := resolve_key user ENV_OPENAI_API_KEY |}]
    /\ fetch {| url := OPENAI_API_URL;
                bearer := resolve_key user ENV_OPENAI_API_KEY |}
       = inr response
    /\ ok response = true /\ body response = Some r
    /\ forall ys o,
         trace g ys o
         <-> Spec.OutputSequence (pending r) (close r) = (ys, o).
Proof.
  intros H.
  destruct (streamOpenAIChat_generator _ _ _ H)
    as (_ & Hs & response & r & Hf & Hok & Hb & ->).
  exists response, r. repeat split; auto.
  - destruct r as [chunks c]. now apply trace_streamChunks.
  - destruct r as [chunks c]. now apply trace_streamChunks.
Qed.

Lemma X13_witness :
  trace (streamChunks {| pending := Sample.chunks; close := EndOfStream |})
    [Sample.Hel; Sample.Lo] Done.
Proof.
  destruct (@X13_sequence_of_the_response
              (JStr (JSString.lit "sk-env")) JUndefined
              (fun _ => inr {| ok := true; text := EmptyString;
                               body := Some {| pending := Sample.chunks;
                                               close := EndOfStream |} |})
              _ _ eq_refl)
    as (response & r & _ & Hf & _ & Hb & H).
  injection Hf as <-. injection Hb as <-.
  apply H. reflexivity.
Defined.

(** X14.  The sequence fails exactly when a read fails before any
    sentinel has come: it ends well whenever the transport ends the
    stream, and also when a sentinel is among the lines received before
    the failing read, which is then never made. *)
Theorem X14_failure_exactly_without_sentinel
  (chunks : list (list Z)) (c : closing)
  (ys : list JSValue) (o : outcome) (e : exn) :
  trace (streamChunks {| pending := chunks; close := c |}) ys o ->
  (o = Failed e
   <-> c = ReadFailure e
       /\ Spec.has_sentinel (Spec.records (Spec.received chunks)) = false).
Proof.
  rewrite trace_streamChunks. unfold Spec.OutputSequence. intros [= _ <-].
  destruct (Spec.has_sentinel (Spec.records (Spec.received chunks))).
  - split; [discriminate|intros [_ H]; discriminate].
  - destruct c as [|e']; simpl.
    + split; [discriminate|intros [H _]; discriminate].
    + split; [intros [= ->]; now split|intros [[= ->] _]; reflexivity].
Qed.

Lemma X14_witness :
  Done = Failed (TransportError 104)
  <-> ReadFailure (TransportError 104) = ReadFailure (TransportError 104)
      /\ Spec.has_sentinel (Spec.records (Spec.received Sample.chunks))
         = false.
Proof.
  apply (@X14_failure_exactly_without_sentinel Sample.chunks
           (ReadFailure (TransportError 104)) [Sample.Hel; Sample.Lo] Done).
  apply trace_iff_run. reflexivity.
Defined.
